(** * exr_reader: the channel-string parser, the channel loader and the
    scoped session of [OpenEXRReader], embedded from [src/exr_reader.py]. *)

From Stdlib Require Import String Ascii List ZArith Bool Lia.
From stdpp Require Import base option list strings gmap.
Import ListNotations.

Local Open Scope string_scope.
Local Open Scope list_scope.

(** ** Python [str] primitives used by the reader

    A [str] is modelled as a [string] of one-byte characters.  The reader
    compares characters with thirteen ASCII letters only and treats every
    other character alike, so wider code points behave like any character
    outside that set. *)

Module PyStr.

(** A one-character [str], as produced by iterating over a [str]. *)
Definition chr (c : ascii) : string := String c EmptyString.

(** Truth value of a [str]: only the empty string is false. *)
Definition truthy (s : string) : bool :=
  match s with
  | EmptyString => false
  | String _ _ => true
  end.

(** [char in s] for a one-character [char]. *)
Fixpoint contains (s : string) (char : ascii) : bool :=
  match s with
  | EmptyString => false
  | String c s' => Ascii.eqb char c || contains s' char
  end.

(** The last character of a string, if any. *)
Fixpoint last_char (s : string) : option ascii :=
  match s with
  | EmptyString => None
  | String c EmptyString => Some c
  | String _ s' => last_char s'
  end.

End PyStr.

(** ** The channel-string parser: [OpenEXRReader._parse_channel_string] *)

Module Parser.
Import PyStr.

(** The four local variables of [_parse_channel_string]. *)
Record locals : Type := Locals {
  char_store : string;
  channel_selector : string;
  channel_names : list string;
  channel_keys : list string
}.

Definition init : locals :=
  {| char_store := EmptyString; channel_selector := EmptyString;
     channel_names := []; channel_keys := [] |}.

(** [self.two_char_expr_starts], set by [__post_init__]. *)
Definition two_char_expr_starts : string := "nf".

(** The nine independent [if char == ...: channel_selector = ...]
    statements at the top of the loop body, in source order. *)
Definition map_char (char : ascii) (sel : string) : string :=
  let sel := if Ascii.eqb char "c" then ".IndexOB.X" else sel in
  let sel := if Ascii.eqb char "i" then ".IndexMA.X" else sel in
  let sel := if Ascii.eqb char "r" then ".Combined.R" else sel in
  let sel := if Ascii.eqb char "g" then ".Combined.G" else sel in
  let sel := if Ascii.eqb char "b" then ".Combined.B" else sel in
  let sel := if Ascii.eqb char "a" then ".Combined.A" else sel in
  let sel := if Ascii.eqb char "d" then ".Depth.Z" else sel in
  let sel := if Ascii.eqb char "n" then ".Normal" else sel in
  let sel := if Ascii.eqb char "f" then ".Vector" else sel in
  sel.

(** The four [if char == ...: channel_selector += ...] statements of the
    "finish two character expression" branch. *)
Definition add_component (char : ascii) (sel : string) : string :=
  let sel := if Ascii.eqb char "x" then sel +:+ ".X" else sel in
  let sel := if Ascii.eqb char "y" then sel +:+ ".Y" else sel in
  let sel := if Ascii.eqb char "z" then sel +:+ ".Z" else sel in
  let sel := if Ascii.eqb char "w" then sel +:+ ".W" else sel in
  sel.

(** One iteration of [for char in channel_string]. *)
Definition step (starts : string) (st : locals) (char : ascii) : locals :=
  let sel := map_char char (channel_selector st) in
  if contains starts char then
    {| char_store := chr char; channel_selector := sel;
       channel_names := channel_names st; channel_keys := channel_keys st |}
  else if truthy (char_store st) then
    let sel := add_component char sel in
    {| char_store := EmptyString; channel_selector := EmptyString;
       channel_names := channel_names st ++ [sel];
       channel_keys := channel_keys st ++ [char_store st +:+ chr char] |}
  else if truthy sel && negb (truthy (char_store st)) then
    {| char_store := EmptyString; channel_selector := EmptyString;
       channel_names := channel_names st ++ [sel];
       channel_keys := channel_keys st ++ [chr char] |}
  else
    {| char_store := char_store st; channel_selector := sel;
       channel_names := channel_names st; channel_keys := channel_keys st |}.

(** The whole [for] loop. *)
Fixpoint scan (starts : string) (channel_string : string) (st : locals) : locals :=
  match channel_string with
  | EmptyString => st
  | String char rest => scan starts rest (step starts st char)
  end.

(** [channel_map = ([self.view_layer_name + c for c in channel_names],
    channel_keys)], the value returned. *)
Definition channel_map (view_layer_name : string) (st : locals)
    : list string * list string :=
  (map (fun c => view_layer_name +:+ c) (channel_names st), channel_keys st).

(** [_parse_channel_string(self, channel_string)]; [self] is read only
    through [self.view_layer_name] and [self.two_char_expr_starts]. *)
Definition _parse_channel_string (view_layer_name starts : string)
    (channel_string : string) : list string * list string :=
  channel_map view_layer_name (scan starts channel_string init).

(** The parser as the specification names it. *)
Definition parse (channelString viewLayerPrefix : string)
    : list string * list string :=
  _parse_channel_string viewLayerPrefix two_char_expr_starts channelString.

(** *** Vocabulary for statements about the parser *)

Definition single_codes : string := "cirgbad".
Definition suffix_codes : string := "xyzw".
Definition alphabet : string := "cirgbadnfxyzw".

Definition is_single (c : ascii) : bool := contains single_codes c.
Definition is_start (c : ascii) : bool := contains two_char_expr_starts c.
Definition is_suffix (c : ascii) : bool := contains suffix_codes c.
Definition in_alphabet (c : ascii) : bool := contains alphabet c.

(** The selector that the source assigns for a character, starting from
    no selector at all. *)
Definition selector_of (c : ascii) : string := map_char c EmptyString.

(** The component that the source appends for a suffix character. *)
Definition component_of (c : ascii) : string := add_component c EmptyString.

(** The input read so far ends in a prefix character. *)
Definition ends_in_start (s : string) : bool :=
  match last_char s with
  | Some c => is_start c
  | None => false
  end.

(** A character string made only of characters of [set]. *)
Fixpoint all_in (set s : string) : bool :=
  match s with
  | EmptyString => true
  | String c s' => contains set c && all_in set s'
  end.

(** A selector that begins with a dot. *)
Definition dotted (sel : string) : bool :=
  match sel with
  | EmptyString => false
  | String c _ => Ascii.eqb c "."
  end.

(** The locals [st] with [ns] and [ks] put in front of its two lists. *)
Definition prepend (ns ks : list string) (st : locals) : locals :=
  {| char_store := char_store st; channel_selector := channel_selector st;
     channel_names := ns ++ channel_names st;
     channel_keys := ks ++ channel_keys st |}.

(** A selector as the loop emits them: it begins with a dot and has at
    least seven characters. *)
Definition good_selector (sel : string) : Prop :=
  dotted sel = true /\ 7 <= String.length sel.

(** Nothing is pending: both string locals are empty. *)
Definition settled (st : locals) : Prop :=
  char_store st = EmptyString /\ channel_selector st = EmptyString.

(** The prefix character [p] is pending with its layer group. *)
Definition pending (p : ascii) (st : locals) : Prop :=
  char_store st = chr p /\ channel_selector st = map_char p EmptyString.

(** The invariant of the loop. *)
Definition well_formed (st : locals) : Prop :=
  (settled st \/ exists p, is_start p = true /\ pending p st) /\
  Forall good_selector (channel_names st) /\
  Forall (fun key => String.length key <= 2) (channel_keys st).

(** Component-wise concatenation of two parser results. *)
Definition cat (a b : list string * list string) : list string * list string :=
  (fst a ++ fst b, snd a ++ snd b).

(** The (layerPath, key) pairs of a parser result. *)
Definition pairs (r : list string * list string) : list (string * string) :=
  combine (fst r) (snd r).

End Parser.

(** ** The reader object, the channel loader and the session *)

Module Reader.

(** What the reader calls but does not define: the [OpenEXR.InputFile]
    object of the OpenEXR library, [array('f', _).tolist()] of the
    standard library, and the buffer conversion of the optional [loader]
    module.  Every call may raise.  [handle_open] observes whether a file
    object still holds its file. *)
Class Collaborators : Type := {
  Handle : Type;
  LibExn : Type;
  Buf : Type;
  Val : Type;
  Loader : Type;
  InputFile : string -> LibExn + Handle;
  InputFile_channels : Handle -> list string -> LibExn + list Buf;
  InputFile_close : Handle -> LibExn + Handle;
  handle_open : Handle -> bool;
  array_f_tolist : Buf -> LibExn + Val;
  loader_frombuffer : Loader -> Buf -> LibExn + Val
}.

(** The contract of the file object that the session relies on:
    a freshly constructed file object is open, and [close()] never raises
    and leaves the object closed, whether or not it was closed before. *)
Class CloseContract (C : Collaborators) : Prop := {
  InputFile_opens : forall path h, InputFile path = inr h -> handle_open h = true;
  close_closes : forall h, exists h', InputFile_close h = inr h' /\ handle_open h' = false
}.

Section WithCollaborators.
Context {C : Collaborators}.

(** An exception seen by the caller: raised by a collaborator, or the
    [AttributeError] of reading [self.inputfile] before [__enter__]. *)
Inductive exn : Type :=
| Raised (e : LibExn)
| AttributeError.

(** The defaults of the dataclass fields [resolution] and
    [view_layer_name]. *)
Definition default_resolution : Z * Z := (1080, 1920)%Z.
Definition default_view_layer_name : string := "BAT_ViewLayer".

(** The reader object after [__init__] and [__post_init__].
    [inputfile] is [None] until [__enter__] binds it; the file object is
    shared with the wrapper that [__enter__] returns.  [read_log] is a
    ghost field: the arguments of every [inputfile.channels] call so far,
    oldest first. *)
Record OpenEXRReader : Type := mkReader {
  filepath : string;
  channel_string : string;
  loader : option Loader;
  resolution : Z * Z;
  view_layer_name : string;
  channels : gmap string Val;
  two_char_expr_starts : string;
  channel_names : list string;
  channel_keys : list string;
  inputfile : option Handle;
  read_log : list (list string)
}.

Definition set_channels (self : OpenEXRReader) (m : gmap string Val) : OpenEXRReader :=
  mkReader (filepath self) (channel_string self) (loader self) (resolution self)
    (view_layer_name self) m (two_char_expr_starts self)
    (channel_names self) (channel_keys self) (inputfile self) (read_log self).

Definition set_inputfile (self : OpenEXRReader) (f : option Handle) : OpenEXRReader :=
  mkReader (filepath self) (channel_string self) (loader self) (resolution self)
    (view_layer_name self) (channels self) (two_char_expr_starts self)
    (channel_names self) (channel_keys self) f (read_log self).

Definition log_read (self : OpenEXRReader) (names : list string) : OpenEXRReader :=
  mkReader (filepath self) (channel_string self) (loader self) (resolution self)
    (view_layer_name self) (channels self) (two_char_expr_starts self)
    (channel_names self) (channel_keys self) (inputfile self)
    (read_log self ++ [names]).

(** [__post_init__(self)], on the five dataclass fields that the generated
    [__init__] has just stored. *)
Definition __post_init__ (filepath channel_string : string) (loader : option Loader)
    (resolution : Z * Z) (view_layer_name : string) : OpenEXRReader :=
  let channels : gmap string Val := ∅ in
  let two_char_expr_starts := "nf" in
  let parsed :=
    Parser._parse_channel_string view_layer_name two_char_expr_starts channel_string in
  mkReader filepath channel_string loader resolution view_layer_name
    channels two_char_expr_starts (fst parsed) (snd parsed) None [].

(** [OpenEXRReader(filepath, channel_string, loader, resolution,
    view_layer_name)]: [None] stands for an argument that the caller omits
    and that the dataclass replaces by its default ([loader] defaults to
    [None] itself). *)
Definition new (filepath channel_string : string) (loader : option Loader)
    (resolution : option (Z * Z)) (view_layer_name : option string)
    : OpenEXRReader :=
  __post_init__ filepath channel_string loader
    (default default_resolution resolution)
    (default default_view_layer_name view_layer_name).

(** The body of the [for channel, channel_key in zip(...)] loop: the
    branch on [not self.loader], a loader being false only when it is
    [None].  With a loader the value stored is
    [self.loader.frombuffer(channel, dtype=self.loader.float32)]; the loader
    is a module chosen by the caller, so its conversion is the parameter
    [loader_frombuffer]. *)
Definition convert (self : OpenEXRReader) (channel : Buf) : LibExn + Val :=
  match loader self with
  | None => array_f_tolist channel
  | Some l => loader_frombuffer l channel
  end.

(** The [for] loop over [zip(channels, channel_keys)], storing each
    converted buffer in [self.channels]. *)
Fixpoint store_channels (self : OpenEXRReader) (zipped : list (Buf * string))
    : (exn + unit) * OpenEXRReader :=
  match zipped with
  | [] => (inr tt, self)
  | (channel, channel_key) :: rest =>
      match convert self channel with
      | inl e => (inl (Raised e), self)
      | inr v => store_channels (set_channels self (<[channel_key := v]> (channels self))) rest
      end
  end.

(** [_load_channels(self, channel_names, channel_keys)]. *)
Definition _load_channels (self : OpenEXRReader)
    (channel_names channel_keys : list string) : (exn + unit) * OpenEXRReader :=
  let channel_names := filter (fun c => channels self !! c = None) channel_names in
  match channel_names with
  | [] => (inr tt, self)
  | _ :: _ =>
      match inputfile self with
      | None => (inl AttributeError, self)
      | Some h =>
          let self := log_read self channel_names in
          match InputFile_channels h channel_names with
          | inl e => (inl (Raised e), self)
          | inr chans => store_channels self (combine chans channel_keys)
          end
      end
  end.

(** The object that [__enter__] returns: the dataclass fields of
    [OpenEXRWrapper] other than the shared file object, and the class
    attributes injected by the metaclass. *)
Record OpenEXRWrapper : Type := mkWrapper {
  w_channel_names : list string;
  w_resolution : Z * Z;
  w_attributes : gmap string Val
}.

(** [__enter__(self)]: bind the file object, load the channels, build the
    wrapper. *)
Definition __enter__ (self : OpenEXRReader) : (exn + OpenEXRWrapper) * OpenEXRReader :=
  match InputFile (filepath self) with
  | inl e => (inl (Raised e), self)
  | inr h =>
      let self := set_inputfile self (Some h) in
      match _load_channels self (channel_names self) (channel_keys self) with
      | (inl e, self) => (inl e, self)
      | (inr _, self) =>
          (inr (mkWrapper (channel_keys self) (resolution self) (channels self)), self)
      end
  end.

(** [__exit__(self, exc_type, exc_val, exc_tb)]: the three arguments are
    not read, and the result [None] does not suppress an exception. *)
Definition __exit__ (self : OpenEXRReader) : (exn + unit) * OpenEXRReader :=
  match inputfile self with
  | None => (inl AttributeError, self)
  | Some h =>
      match InputFile_close h with
      | inl e => (inl (Raised e), self)
      | inr h' => (inr tt, set_inputfile self (Some h'))
      end
  end.

(** Code of the [with] block acting on the shared file object through
    [exr.inputfile]. *)
Definition use_inputfile {A : Type} (f : Handle -> (exn + A) * Handle)
    (self : OpenEXRReader) : (exn + A) * OpenEXRReader :=
  match inputfile self with
  | None => (inl AttributeError, self)
  | Some h => let (r, h') := f h in (r, set_inputfile self (Some h'))
  end.

(** [exr.inputfile.close()] called directly. *)
Definition direct_close (h : Handle) : (exn + unit) * Handle :=
  match InputFile_close h with
  | inl e => (inl (Raised e), h)
  | inr h' => (inr tt, h')
  end.

(** [with self as exr: body], by the rules of the [with] statement:
    [__exit__] runs exactly when [__enter__] has returned; an exception of
    [__enter__] propagates at once, an exception of the block propagates
    after [__exit__], and an exception of [__exit__] replaces it. *)
Definition with_reader {A : Type} (self : OpenEXRReader)
    (body : OpenEXRWrapper -> Handle -> (exn + A) * Handle)
    : (exn + A) * OpenEXRReader :=
  match __enter__ self with
  | (inl e, self) => (inl e, self)
  | (inr exr, self) =>
      let (r, self) := use_inputfile (body exr) self in
      match __exit__ self with
      | (inl e, self) => (inl e, self)
      | (inr _, self) => (r, self)
      end
  end.

(** The file object of the session is bound and still open. *)
Definition file_left_open (self : OpenEXRReader) : bool :=
  match inputfile self with
  | Some h => handle_open h
  | None => false
  end.

(** The file object of the session is bound and closed. *)
Definition file_closed (self : OpenEXRReader) : bool :=
  match inputfile self with
  | Some h => negb (handle_open h)
  | None => false
  end.

End WithCollaborators.

End Reader.

(** ** An in-memory file object for running the session *)

Module Fixture.
Import Reader.

(** A stand-in for the collaborators, after the external-interfaces
    section of the specification: opening fails on an unknown path,
    reading fails when a requested name is absent, closing never fails.
    Buffers and values are lists of integers. *)
Inductive error : Type := OpenError | MissingChannelError.

Record file : Type := mkFile {
  f_channels : list (string * list Z);
  f_open : bool
}.

Fixpoint assoc {A : Type} (k : string) (l : list (string * A)) : option A :=
  match l with
  | [] => None
  | (k', v) :: l' => if String.eqb k k' then Some v else assoc k l'
  end.

Definition disk : list (string * list (string * list Z)) :=
  [("frame.exr",
    [("BAT_ViewLayer.Combined.R", [1; 2]%Z);
     ("BAT_ViewLayer.Combined.G", [3; 4]%Z);
     ("BAT_ViewLayer.Normal.X", [5; 6]%Z)])].

Definition open_file (path : string) : error + file :=
  match assoc path disk with
  | Some chs => inr (mkFile chs true)
  | None => inl OpenError
  end.

Fixpoint read_all (chs : list (string * list Z)) (names : list string)
    : error + list (list Z) :=
  match names with
  | [] => inr []
  | n :: names' =>
      match assoc n chs, read_all chs names' with
      | Some b, inr bs => inr (b :: bs)
      | _, _ => inl MissingChannelError
      end
  end.

Definition close_file (f : file) : error + file :=
  inr (mkFile (f_channels f) false).

Definition collaborators : Collaborators :=
  {| Handle := file; LibExn := error; Buf := list Z; Val := list Z;
     Loader := unit;
     InputFile := open_file;
     InputFile_channels := fun f => read_all (f_channels f);
     InputFile_close := close_file;
     handle_open := f_open;
     array_f_tolist := fun b => inr b;
     loader_frombuffer := fun _ b => inr b |}.

(** Readers of ["frame.exr"]: one asking for a channel the file lacks,
    one asking for channels it has. *)
Definition missing_channel : @OpenEXRReader collaborators :=
  new "frame.exr" "nw" None None None.

Definition present_channels : @OpenEXRReader collaborators :=
  new "frame.exr" "rg" None None None.

(** The reader of ["frame.exr"] for ["rg"] after a first [__enter__]. *)
Definition loaded_once : @OpenEXRReader collaborators :=
  snd (__enter__ present_channels).

(** Blocks of a [with] statement: one that does nothing, one that
    raises, one that closes the file itself. *)
Definition idle_block (exr : @OpenEXRWrapper collaborators) (f : file)
    : (@exn collaborators + unit) * file := (inr tt, f).

Definition raising_block (exr : @OpenEXRWrapper collaborators) (f : file)
    : (@exn collaborators + unit) * file := (inl (Raised (OpenError : @LibExn collaborators)), f).

Definition closing_block (exr : @OpenEXRWrapper collaborators) (f : file)
    : (@exn collaborators + unit) * file := @direct_close collaborators f.

End Fixture.

(** ** Well-formed codes, for statements about whole channel strings *)

Module Codes.
Import PyStr Parser.

(** What one emission of the loop consumes: a single-character code, or a
    prefix character and the character that closes it. *)
Inductive code : Type :=
| Single (c : ascii)
| Double (p c : ascii).

(** A single-character code is one of [cirgbad]; a two-character
    expression is a prefix character followed by any character that is not
    a prefix character. *)
Definition code_ok (k : code) : bool :=
  match k with
  | Single c => is_single c
  | Double p c => is_start p && negb (is_start c)
  end.

(** The characters of a code, as they stand in the channel string. *)
Definition code_key (k : code) : string :=
  match k with
  | Single c => chr c
  | Double p c => String p (chr c)
  end.

(** The selector that the source builds for a code: the assignments of
    [map_char], then for a two-character expression those of
    [add_component]. *)
Definition code_selector (k : code) : string :=
  match k with
  | Single c => selector_of c
  | Double p c => add_component c (map_char c (selector_of p))
  end.

(** The channel string that spells a list of codes. *)
Fixpoint spell (ks : list code) : string :=
  match ks with
  | [] => EmptyString
  | k :: ks' => code_key k +:+ spell ks'
  end.

(** The strings of a list joined end to end. *)
Fixpoint join (l : list string) : string :=
  match l with
  | [] => EmptyString
  | x :: l' => x +:+ join l'
  end.

(** The selector that belongs to a key of one or two characters. *)
Definition selector_of_key (key : string) : string :=
  match key with
  | String c EmptyString => selector_of c
  | String p (String c EmptyString) => add_component c (map_char c (selector_of p))
  | _ => EmptyString
  end.

(** The seventeen selectors that occur in the source: seven for the
    single-character codes, the two bare layer groups, and the two layer
    groups with each of the four components. *)
Definition all_selectors : list string :=
  [".IndexOB.X"; ".IndexMA.X"; ".Combined.R"; ".Combined.G"; ".Combined.B";
   ".Combined.A"; ".Depth.Z"; ".Normal"; ".Vector";
   ".Normal.X"; ".Normal.Y"; ".Normal.Z"; ".Normal.W";
   ".Vector.X"; ".Vector.Y"; ".Vector.Z"; ".Vector.W"].

(** The nine characters for which the loop assigns a selector. *)
Definition code_letters : string := "cirgbadnf".

(** A string without any character of [set]. *)
Fixpoint none_in (set s : string) : bool :=
  match s with
  | EmptyString => true
  | String c s' => negb (contains set c) && none_in set s'
  end.

(** The string begins with a prefix character. *)
Definition begins_with_start (s : string) : bool :=
  match s with
  | EmptyString => false
  | String c _ => is_start c
  end.

(** The characters of a list of keys, in order. *)
Definition key_chars (keys : list string) : list ascii :=
  List.concat (map list_ascii_of_string keys).

(** The two lists of the locals are those of a list of well-formed codes. *)
Definition explained (st : locals) : Prop :=
  exists ks : list code,
    forallb code_ok ks = true /\
    channel_names st = map code_selector ks /\
    channel_keys st = map code_key ks.

End Codes.

(** ** What a reader keeps from one session to the next *)

Module Invariants.
Import Reader.

Section WithCollaborators.
Context {C : Collaborators}.

(** The reader still holds the two lists that [__post_init__] computed
    from its channel string, and its mapping has only keys of at most two
    characters. *)
Definition parsed_reader (self : OpenEXRReader) : Prop :=
  channel_names self =
    fst (Parser.parse (channel_string self) (view_layer_name self)) /\
  channel_keys self =
    snd (Parser.parse (channel_string self) (view_layer_name self)) /\
  forall k, is_Some (channels self !! k) -> String.length k <= 2.

(** The layer paths that pass the filter of [_load_channels]. *)
Definition requested (self : OpenEXRReader) (channel_names : list string)
    : list string :=
  filter (fun c => channels self !! c = None) channel_names.

End WithCollaborators.

End Invariants.

(** ** A file object whose buffers may fail to convert *)

Module StrictFixture.
Import Reader.

(** As [Fixture], but a buffer converts only when its length is a
    multiple of four, the item size of [array('f')]. *)
Inductive error : Type := OpenError | MissingChannelError | ValueError.

Definition open_file (path : string) : error + Fixture.file :=
  match Fixture.assoc path Fixture.disk with
  | Some chs => inr (Fixture.mkFile chs true)
  | None => inl OpenError
  end.

Definition read_all (f : Fixture.file) (names : list string) : error + list (list Z) :=
  match Fixture.read_all (Fixture.f_channels f) names with
  | inr bs => inr bs
  | inl _ => inl MissingChannelError
  end.

Definition to_floats (b : list Z) : error + list Z :=
  if Nat.eqb (Nat.modulo (length b) 4) 0 then inr b else inl ValueError.

Definition collaborators : Collaborators :=
  {| Handle := Fixture.file; LibExn := error; Buf := list Z; Val := list Z;
     Loader := unit;
     InputFile := open_file;
     InputFile_channels := read_all;
     InputFile_close := fun f => inr (Fixture.mkFile (Fixture.f_channels f) false);
     handle_open := Fixture.f_open;
     array_f_tolist := to_floats;
     loader_frombuffer := fun _ b => inr b |}.

(** A reader with its file bound, asked for two channels. *)
Definition bound_reader : @OpenEXRReader collaborators :=
  @set_inputfile collaborators (@new collaborators "frame.exr" "rg" None None None)
    (Some (Fixture.mkFile
             [("BAT_ViewLayer.Combined.R", [1; 2; 3; 4]%Z);
              ("BAT_ViewLayer.Combined.G", [5; 6]%Z)] true)).

End StrictFixture.

Import PyStr Parser.

(** ** Evaluating the parser *)

Example parse_rgb_value : parse "rgb" "VL" =
  (["VL.Combined.R"; "VL.Combined.G"; "VL.Combined.B"], ["r"; "g"; "b"]).
Proof. reflexivity. Qed.

Example parse_mixed_value : parse "nxnyfqdn" "VL" =
  (["VL.Normal.X"; "VL.Normal.Y"; "VL.Vector"; "VL.Depth.Z"], ["nx"; "ny"; "fq"; "d"]).
Proof. reflexivity. Qed.

(** ** Strings *)

Lemma append_cons (c : ascii) (s t : string) : String c s +:+ t = String c (s +:+ t).
Proof. reflexivity. Qed.

Lemma append_assoc (a b c : string) : (a +:+ b) +:+ c = a +:+ (b +:+ c).
Proof.
  induction a as [|x a IH]; [reflexivity|].
  rewrite !append_cons, IH. reflexivity.
Qed.

Lemma last_char_cons (c : ascii) (s : string) :
  s <> EmptyString -> last_char (String c s) = last_char s.
Proof. destruct s; [congruence | reflexivity]. Qed.

Lemma last_char_snoc (s : string) (c : ascii) : last_char (s +:+ chr c) = Some c.
Proof.
  induction s as [|x s IH]; [reflexivity|].
  rewrite append_cons, last_char_cons; [exact IH|]. destruct s; discriminate.
Qed.

(** [ends_in_start] looks at the last character only. *)
Lemma ends_in_start_snoc (s : string) (c : ascii) :
  ends_in_start (s +:+ chr c) = is_start c.
Proof. unfold ends_in_start. now rewrite last_char_snoc. Qed.

Lemma ends_in_start_empty : ends_in_start EmptyString = false.
Proof. reflexivity. Qed.

(** ** Characters of the code alphabet *)

Lemma contains_true (s : string) (c : ascii) :
  contains s c = true -> In c (list_ascii_of_string s).
Proof.
  induction s as [|x s IH]; simpl; [discriminate|].
  intros H. apply orb_true_iff in H. destruct H as [H|H].
  - left. symmetry. now apply Ascii.eqb_eq.
  - right. now apply IH.
Qed.

Lemma contains_false (s : string) (c : ascii) :
  contains s c = false -> forall k, In k (list_ascii_of_string s) -> Ascii.eqb c k = false.
Proof.
  induction s as [|x s IH]; simpl; [intros _ k []|].
  intros H k [<-|Hk]; apply orb_false_iff in H; destruct H as [H1 H2]; auto.
Qed.

(** Case analysis on a character known to belong to a literal string. *)
Ltac char_cases H :=
  apply contains_true in H; simpl in H;
  repeat (destruct H as [H|H]; [subst|]); [..|contradiction].

(** Every comparison of [c] with the characters of a literal string that
    does not contain it is false. *)
Ltac char_absent H :=
  let F := fresh "F" in
  pose proof (contains_false _ _ H) as F; simpl in F;
  repeat match goal with
  | |- context [Ascii.eqb ?c ?k] =>
      rewrite (F k) by (simpl; tauto)
  end; clear F.

(** ** One iteration of the loop *)

Section Step.
Local Abbreviation starts := two_char_expr_starts.

Lemma step_unfold st c :
  step starts st c =
    let sel := map_char c (channel_selector st) in
    if is_start c then
      {| char_store := chr c; channel_selector := sel;
         channel_names := channel_names st; channel_keys := channel_keys st |}
    else if truthy (char_store st) then
      {| char_store := EmptyString; channel_selector := EmptyString;
         channel_names := channel_names st ++ [add_component c sel];
         channel_keys := channel_keys st ++ [char_store st +:+ chr c] |}
    else if truthy sel then
      {| char_store := EmptyString; channel_selector := EmptyString;
         channel_names := channel_names st ++ [sel];
         channel_keys := channel_keys st ++ [chr c] |}
    else
      {| char_store := char_store st; channel_selector := sel;
         channel_names := channel_names st; channel_keys := channel_keys st |}.
Proof.
  unfold step, is_start. cbv zeta.
  destruct (contains starts c); [reflexivity|].
  destruct (truthy (char_store st)); [reflexivity|].
  now rewrite andb_true_r.
Qed.

Lemma step_prepend ns ks st c :
  step starts (prepend ns ks st) c = prepend ns ks (step starts st c).
Proof.
  unfold step, prepend; cbn [char_store channel_selector channel_names channel_keys].
  destruct (contains starts c); [reflexivity|].
  destruct (truthy (char_store st)); cbn [andb negb];
    [now rewrite <- !app_assoc|].
  destruct (truthy (map_char c (channel_selector st))); cbn [andb];
    [now rewrite <- !app_assoc | reflexivity].
Qed.

Lemma scan_prepend ns ks s : forall st,
  scan starts s (prepend ns ks st) = prepend ns ks (scan starts s st).
Proof.
  induction s as [|c s IH]; intros st; simpl; [reflexivity|].
  now rewrite step_prepend, IH.
Qed.

Lemma scan_app s1 s2 : forall st,
  scan starts (s1 +:+ s2) st = scan starts s2 (scan starts s1 st).
Proof.
  induction s1 as [|c s1 IH]; intros st; [reflexivity|].
  rewrite append_cons. simpl. apply IH.
Qed.

(** A prefix character only becomes pending; nothing is emitted. *)
Lemma step_start st p :
  is_start p = true ->
  step starts st p =
    {| char_store := chr p; channel_selector := selector_of p;
       channel_names := channel_names st; channel_keys := channel_keys st |}.
Proof.
  intros H. rewrite step_unfold. cbv zeta. rewrite H.
  unfold is_start in H. char_cases H; reflexivity.
Qed.

(** After any other character nothing is pending. *)
Lemma step_settles st c : is_start c = false -> settled (step starts st c).
Proof.
  intros H. rewrite step_unfold. cbv zeta. rewrite H.
  destruct (char_store st) as [|x cs] eqn:Ecs; cbn [truthy].
  - destruct (map_char c (channel_selector st)) eqn:Esel; cbn [truthy];
      split; auto.
  - split; reflexivity.
Qed.

(** A single-character code met while nothing is pending is emitted at
    once, under its own character. *)
Lemma step_single st c :
  settled st -> is_single c = true ->
  step starts st c = Locals EmptyString EmptyString (channel_names st ++ [selector_of c])
                                  (channel_keys st ++ [chr c]).
Proof.
  intros [Hcs Hsel] H. destruct st as [cs sel ns ks]; simpl in *; subst.
  unfold is_single in H. char_cases H; reflexivity.
Qed.

(** Any other character met while nothing is pending changes nothing. *)
Lemma step_idle st c :
  settled st -> is_single c = false -> is_start c = false ->
  step starts st c = st.
Proof.
  intros [Hcs Hsel] H1 H2. destruct st as [cs sel ns ks]; simpl in *; subst.
  rewrite step_unfold. cbv zeta. rewrite H2. cbn [char_store channel_selector truthy].
  unfold map_char. unfold is_single in H1. unfold is_start in H2.
  char_absent H1. char_absent H2. reflexivity.
Qed.

(** A character other than a prefix met while a prefix is pending closes
    the two-character expression. *)
Lemma step_finish st p c :
  pending p st -> is_start p = true -> is_start c = false ->
  step starts st c =
    Locals EmptyString EmptyString (channel_names st ++ [add_component c (map_char c (selector_of p))])
                 (channel_keys st ++ [chr p +:+ chr c]).
Proof.
  intros [Hcs Hsel] Hp Hc. destruct st as [cs sel ns ks]; simpl in *; subst.
  rewrite step_unfold. cbv zeta. rewrite Hc. reflexivity.
Qed.

Lemma settled_prepend ns ks : Locals EmptyString EmptyString ns ks = prepend ns ks init.
Proof. unfold prepend; simpl. now rewrite !app_nil_r. Qed.

Lemma settled_eta st : settled st -> st = prepend (channel_names st) (channel_keys st) init.
Proof.
  intros [H1 H2]. destruct st as [cs sel ns ks]; simpl in *; subst.
  apply settled_prepend.
Qed.

Lemma step_start_pending st p : is_start p = true -> pending p (step starts st p).
Proof. intros H. rewrite step_start by exact H. split; reflexivity. Qed.

End Step.

(** ** The whole loop *)

Section Scan.
Local Abbreviation starts := two_char_expr_starts.

Lemma parse_unfold s vl : parse s vl = channel_map vl (scan starts s init).
Proof. reflexivity. Qed.

Lemma cat_assoc a b c : cat (cat a b) c = cat a (cat b c).
Proof. unfold cat; simpl. now rewrite <- !app_assoc. Qed.

Lemma channel_map_prepend vl ns ks st :
  channel_map vl (prepend ns ks st) =
    cat (map (fun c => vl +:+ c) ns, ks) (channel_map vl st).
Proof. unfold channel_map, prepend, cat; simpl. now rewrite map_app. Qed.

Lemma channel_map_eta vl st :
  channel_map vl st = (map (fun c => vl +:+ c) (channel_names st), channel_keys st).
Proof. reflexivity. Qed.

(** What is pending after a string depends on its last character only. *)
Lemma scan_settled s : forall st,
  (s = EmptyString -> settled st) -> ends_in_start s = false ->
  settled (scan starts s st).
Proof.
  induction s as [|c s IH]; intros st Hst He; [now apply Hst|].
  simpl. destruct s as [|d s].
  - simpl. now apply step_settles.
  - apply IH; [discriminate|]. exact He.
Qed.

Lemma scan_init_settled s :
  ends_in_start s = false -> settled (scan starts s init).
Proof. intros H. apply scan_settled; [|exact H]. intros _. split; reflexivity. Qed.

(** The loop resumed after an emission that left nothing pending. *)
Lemma parse_emit s1 m s2 vl n k :
  scan starts m (scan starts s1 init) =
    Locals EmptyString EmptyString (channel_names (scan starts s1 init) ++ [n])
                 (channel_keys (scan starts s1 init) ++ [k]) ->
  parse (s1 +:+ m +:+ s2) vl =
    cat (parse s1 vl) (cat ([vl +:+ n], [k]) (parse s2 vl)).
Proof.
  intros H. rewrite !parse_unfold, !scan_app, H, settled_prepend, scan_prepend.
  rewrite channel_map_prepend, map_app, <- cat_assoc. reflexivity.
Qed.

(** Characters that leave the locals as they were can be deleted. *)
Lemma parse_skip s1 m s2 vl :
  scan starts m (scan starts s1 init) = scan starts s1 init ->
  parse (s1 +:+ m +:+ s2) vl = parse (s1 +:+ s2) vl.
Proof. intros H. now rewrite !parse_unfold, !scan_app, H. Qed.

(** Where nothing is pending the input can be cut in two. *)
Lemma parse_cut s1 s2 vl :
  ends_in_start s1 = false ->
  parse (s1 +:+ s2) vl = cat (parse s1 vl) (parse s2 vl).
Proof.
  intros H. rewrite !parse_unfold, scan_app.
  rewrite (settled_eta _ (scan_init_settled _ H)) at 1.
  now rewrite scan_prepend, channel_map_prepend.
Qed.

End Scan.

(** ** Classification of characters *)

Lemma contains_app (a b : string) (c : ascii) :
  contains (a +:+ b) c = contains a c || contains b c.
Proof.
  induction a as [|x a IH]; [reflexivity|].
  rewrite append_cons. simpl. rewrite IH. now rewrite orb_assoc.
Qed.

Lemma outside_alphabet (c : ascii) :
  in_alphabet c = false ->
  is_single c = false /\ is_start c = false /\ is_suffix c = false.
Proof.
  unfold in_alphabet, is_single, is_start, is_suffix.
  change alphabet with (single_codes +:+ two_char_expr_starts +:+ suffix_codes).
  rewrite !contains_app. intros H.
  apply orb_false_iff in H. destruct H as [H1 H].
  apply orb_false_iff in H. destruct H as [H2 H3]. auto.
Qed.

(** The name emitted when a suffix closes a pending prefix. *)
Lemma finish_suffix (p c : ascii) :
  is_start p = true -> is_suffix c = true ->
  add_component c (map_char c (selector_of p)) = selector_of p +:+ component_of c.
Proof.
  intros Hp Hc. unfold is_start in Hp. unfold is_suffix in Hc.
  char_cases Hp; char_cases Hc; reflexivity.
Qed.

(** The name emitted when a single-character code closes a pending prefix. *)
Lemma finish_single (p c : ascii) :
  is_single c = true ->
  add_component c (map_char c (selector_of p)) = selector_of c.
Proof.
  intros Hc. unfold is_single in Hc.
  char_cases Hc; unfold selector_of, map_char, add_component; simpl;
    repeat match goal with |- context [if ?b then _ else _] => destruct b end;
    reflexivity.
Qed.

(** The name emitted when any other character closes a pending prefix. *)
Lemma finish_other (p c : ascii) :
  is_single c = false -> is_start c = false -> is_suffix c = false ->
  add_component c (map_char c (selector_of p)) = selector_of p.
Proof.
  unfold is_single, is_start, is_suffix. intros H1 H2 H3.
  unfold add_component, map_char.
  char_absent H1. char_absent H2. char_absent H3. reflexivity.
Qed.

(** A prefix character followed by any other character: one emission. *)
Lemma scan_two_chars st p c :
  is_start p = true -> is_start c = false ->
  scan two_char_expr_starts (String p (chr c)) st =
    Locals EmptyString EmptyString (channel_names st ++ [add_component c (map_char c (selector_of p))])
                 (channel_keys st ++ [chr p +:+ chr c]).
Proof.
  intros Hp Hc. simpl.
  rewrite (step_finish _ p c (step_start_pending st p Hp) Hp Hc).
  rewrite step_start by exact Hp. reflexivity.
Qed.

Lemma suffix_not_start (c : ascii) : is_suffix c = true -> is_start c = false.
Proof. intros H. unfold is_suffix in H. char_cases H; reflexivity. Qed.

(** Prefix characters alone never emit. *)
Lemma scan_starts_only ps : forall st,
  all_in two_char_expr_starts ps = true ->
  channel_names (scan two_char_expr_starts ps st) = channel_names st /\
  channel_keys (scan two_char_expr_starts ps st) = channel_keys st.
Proof.
  induction ps as [|p ps IH]; intros st H; [split; reflexivity|].
  simpl in H. apply andb_true_iff in H. destruct H as [Hp Hps].
  simpl. destruct (IH (step two_char_expr_starts st p) Hps) as [-> ->].
  rewrite step_start by exact Hp. split; reflexivity.
Qed.

(** ** Single-character codes *)

Lemma parse_single (s1 s2 vl : string) (c : ascii) :
  is_single c = true -> ends_in_start s1 = false ->
  parse (s1 +:+ String c s2) vl =
    cat (parse s1 vl) (cat ([vl +:+ selector_of c], [chr c]) (parse s2 vl)).
Proof.
  intros Hc Hs1. change (String c s2) with (chr c +:+ s2).
  apply parse_emit. simpl.
  apply step_single; [now apply scan_init_settled | exact Hc].
Qed.

Lemma parse_single_head (s2 vl : string) (c : ascii) :
  is_single c = true ->
  parse (String c s2) vl = cat ([vl +:+ selector_of c], [chr c]) (parse s2 vl).
Proof. intros Hc. exact (parse_single EmptyString s2 vl c Hc eq_refl). Qed.

(** C1, as stated, fails: in ["rg"] the code [r] is followed by [g], yet
    the pair emitted for [r] carries the key ["r"], and no pair joins the
    path of [r] with the key ["g"]. *)
Lemma C1_late_key_refuted :
  is_single "r" = true /\
  pairs (parse "rg" "VL") = [("VL.Combined.R", "r"); ("VL.Combined.G", "g")] /\
  ~ In ("VL.Combined.R", "g") (pairs (parse "rg" "VL")).
Proof.
  split; [reflexivity|]. split; [reflexivity|].
  intros [H|[H|[]]]; discriminate H.
Qed.

(** C1, amended: a single-character code that does not directly follow a
    prefix character emits exactly one pair, in its own iteration and
    whether or not another character follows; the path is the prefix
    followed by the selector of the code and the key is the code character
    itself. *)
Theorem C1_single_code_own_key (s1 s2 vl : string) (c : ascii) :
  is_single c = true -> ends_in_start s1 = false ->
  parse (s1 +:+ String c s2) vl =
    cat (parse s1 vl) (cat ([vl +:+ selector_of c], [chr c]) (parse s2 vl)).
Proof.
  intros Hc Hs1. now apply parse_single.
Qed.

Lemma C1_single_code_own_key_witness :
  is_single "r" = true /\ ends_in_start "d" = false /\
  parse ("d" +:+ String "r" "g") "VL" =
    cat (parse "d" "VL") (cat (["VL" +:+ selector_of "r"], [chr "r"]) (parse "g" "VL")).
Proof.
  split; [reflexivity|]. split; [reflexivity|].
  apply (C1_single_code_own_key "d" "g" "VL" "r"); reflexivity.
Defined.

(** C2, as stated, fails: [parse "rgb" "VL"] is not the two-element result
    with the paths of [g] and [b] under the keys ["r"] and ["g"]. *)
Lemma C2_rgb_refuted :
  parse "rgb" "VL" <> (["VL.Combined.G"; "VL.Combined.B"], ["r"; "g"]).
Proof. discriminate. Qed.

(** C2, amended: [parse "rgb" "VL"] returns the three paths of [r], [g]
    and [b] under the keys ["r"], ["g"] and ["b"]; in a three-character
    string of single-character codes all three codes resolve, the trailing
    one included. *)
Theorem C2_rgb_all_resolve :
  parse "rgb" "VL" =
    (["VL.Combined.R"; "VL.Combined.G"; "VL.Combined.B"], ["r"; "g"; "b"]) /\
  forall (a b c : ascii) (vl : string),
    is_single a = true -> is_single b = true -> is_single c = true ->
    parse (String a (String b (chr c))) vl =
      ([vl +:+ selector_of a; vl +:+ selector_of b; vl +:+ selector_of c],
       [chr a; chr b; chr c]).
Proof.
  split; [reflexivity|]. intros a b c vl Ha Hb Hc.
  unfold chr. rewrite !parse_single_head by assumption. reflexivity.
Qed.

Lemma C2_rgb_all_resolve_witness :
  is_single "c" = true /\ is_single "i" = true /\ is_single "d" = true /\
  parse (String "c" (String "i" (chr "d"))) "L" =
    (["L" +:+ selector_of "c"; "L" +:+ selector_of "i"; "L" +:+ selector_of "d"],
     [chr "c"; chr "i"; chr "d"]).
Proof.
  repeat (split; [reflexivity|]).
  apply (proj2 C2_rgb_all_resolve "c"%char "i"%char "d"%char "L"); reflexivity.
Defined.

(** ** Prefix characters *)

Lemma parse_two_chars (s1 s2 vl : string) (p c : ascii) :
  is_start p = true -> is_start c = false ->
  parse (s1 +:+ String p (String c s2)) vl =
    cat (parse s1 vl)
        (cat ([vl +:+ add_component c (map_char c (selector_of p))], [chr p +:+ chr c])
             (parse s2 vl)).
Proof.
  intros Hp Hc. change (String p (String c s2)) with (String p (chr c) +:+ s2).
  apply parse_emit. now apply scan_two_chars.
Qed.

(** C4, as stated, fails: in ["nq"] the prefix [n] is followed by no
    suffix character before the string ends, yet a pair is emitted for it;
    the character [q] alone emits nothing. *)
Lemma C4_dangling_prefix_refuted :
  is_start "n" = true /\ is_suffix "q" = false /\
  parse "nq" "VL" = (["VL.Normal"], ["nq"]) /\
  parse "q" "VL" = ([], []) /\
  parse "nq" "VL" <> parse "q" "VL".
Proof. repeat split. discriminate. Qed.

(** C4, amended: a prefix character that ends the string, or that is
    followed only by prefix characters up to the end of the string, or that
    is directly followed by another prefix character, is dropped: the
    result is the one obtained without it, no pair is emitted for it. *)
Theorem C4_prefix_dropped :
  (forall (s1 ps vl : string) (p : ascii),
     is_start p = true -> all_in two_char_expr_starts ps = true ->
     parse (s1 +:+ String p ps) vl = parse s1 vl) /\
  (forall (s1 s2 vl : string) (p p' : ascii),
     is_start p = true -> is_start p' = true ->
     parse (s1 +:+ String p (String p' s2)) vl = parse (s1 +:+ String p' s2) vl).
Proof.
  split.
  - intros s1 ps vl p Hp Hps. rewrite !parse_unfold, scan_app, !channel_map_eta.
    simpl.
    destruct (scan_starts_only ps
                (step two_char_expr_starts (scan two_char_expr_starts s1 init) p) Hps)
      as [-> ->].
    now rewrite step_start by exact Hp.
  - intros s1 s2 vl p p' Hp Hp'. rewrite !parse_unfold, !scan_app. simpl.
    f_equal. f_equal. now rewrite !step_start by assumption.
Qed.

Lemma C4_prefix_dropped_witness :
  (is_start "n" = true /\ all_in two_char_expr_starts "f" = true /\
   parse ("r" +:+ String "n" "f") "VL" = parse "r" "VL") /\
  (is_start "n" = true /\ is_start "f" = true /\
   parse ("r" +:+ String "n" (String "f" "x")) "VL" =
     parse ("r" +:+ String "f" "x") "VL").
Proof.
  split; (split; [reflexivity|]); (split; [reflexivity|]).
  - apply (proj1 C4_prefix_dropped "r" "f" "VL" "n"%char); reflexivity.
  - apply (proj2 C4_prefix_dropped "r" "x" "VL" "n"%char "f"%char); reflexivity.
Defined.

(** C6: [parse "nx" "VL"] and [parse "nxny" "VL"] are as listed, and
    wherever a prefix character is directly followed by a suffix character
    the two emit exactly one pair: the key is the two source characters and
    the path is the prefix, the layer group of the prefix character and the
    component of the suffix character. *)
Theorem C6_two_character_code :
  parse "nx" "VL" = (["VL.Normal.X"], ["nx"]) /\
  parse "nxny" "VL" = (["VL.Normal.X"; "VL.Normal.Y"], ["nx"; "ny"]) /\
  forall (s1 s2 vl : string) (p c : ascii),
    is_start p = true -> is_suffix c = true ->
    parse (s1 +:+ String p (String c s2)) vl =
      cat (parse s1 vl)
          (cat ([vl +:+ (selector_of p +:+ component_of c)], [String p (String c EmptyString)])
               (parse s2 vl)).
Proof.
  split; [reflexivity|]. split; [reflexivity|].
  intros s1 s2 vl p c Hp Hc.
  rewrite parse_two_chars by auto using suffix_not_start.
  now rewrite finish_suffix.
Qed.

Lemma C6_two_character_code_witness :
  is_start "f" = true /\ is_suffix "y" = true /\
  parse ("d" +:+ String "f" (String "y" "nz")) "VL" =
    cat (parse "d" "VL")
        (cat (["VL" +:+ (selector_of "f" +:+ component_of "y")], ["fy"])
             (parse "nz" "VL")).
Proof.
  split; [reflexivity|]. split; [reflexivity|].
  apply (proj2 (proj2 C6_two_character_code) "d" "nz" "VL" "f"%char "y"%char);
    reflexivity.
Defined.

(** C9: [parse "nr" "VL"] emits [("VL.Combined.R", "nr")] and
    [parse "nq" "VL"] emits [("VL.Normal", "nq")]; wherever a prefix
    character [p] is directly followed by a character [c] that is neither a
    suffix nor a prefix, exactly one pair is emitted with key [p] then [c]:
    its path carries the selector of [c] when [c] is a single-character code
    and the bare layer group of [p] otherwise. *)
Theorem C9_prefix_then_other :
  parse "nr" "VL" = (["VL.Combined.R"], ["nr"]) /\
  parse "nq" "VL" = (["VL.Normal"], ["nq"]) /\
  forall (s1 s2 vl : string) (p c : ascii),
    is_start p = true -> is_suffix c = false -> is_start c = false ->
    parse (s1 +:+ String p (String c s2)) vl =
      cat (parse s1 vl)
          (cat ([vl +:+ (if is_single c then selector_of c else selector_of p)],
                [String p (String c EmptyString)])
               (parse s2 vl)).
Proof.
  split; [reflexivity|]. split; [reflexivity|].
  intros s1 s2 vl p c Hp Hx Hc.
  rewrite parse_two_chars by assumption.
  destruct (is_single c) eqn:Hs.
  - now rewrite finish_single.
  - now rewrite finish_other.
Qed.

Lemma C9_prefix_then_other_witness :
  is_start "f" = true /\ is_suffix "g" = false /\ is_start "g" = false /\
  parse ("nx" +:+ String "f" (String "g" "b")) "L" =
    cat (parse "nx" "L")
        (cat (["L" +:+ (if is_single "g" then selector_of "g" else selector_of "f")],
              ["fg"])
             (parse "b" "L")).
Proof.
  repeat (split; [reflexivity|]).
  apply (proj2 (proj2 C9_prefix_then_other) "nx" "b" "L" "f"%char "g"%char);
    reflexivity.
Defined.

(** ** Characters outside the alphabet *)

(** C5, as stated, fails: [q] is outside the alphabet, yet after the
    prefix [n] it completes a code and contributes a pair. *)
Lemma C5_unrecognized_refuted :
  in_alphabet "q" = false /\
  parse "n" "VL" = ([], []) /\
  parse "nq" "VL" = (["VL.Normal"], ["nq"]) /\
  parse "nqx" "VL" <> parse "nx" "VL".
Proof. repeat split. discriminate. Qed.

(** C5, amended: a character outside the alphabet that does not directly
    follow a prefix character is ignored: the result is the one obtained
    with the character deleted, so it starts no code, completes none and
    contributes no pair; the parser is a total function and raises
    nothing. *)
Theorem C5_unrecognized_ignored (s1 s2 vl : string) (q : ascii) :
  in_alphabet q = false -> ends_in_start s1 = false ->
  parse (s1 +:+ String q s2) vl = parse (s1 +:+ s2) vl.
Proof.
  intros Hq Hs1. destruct (outside_alphabet q Hq) as (H1 & H2 & _).
  change (String q s2) with (chr q +:+ s2).
  apply parse_skip. simpl.
  apply step_idle; [now apply scan_init_settled | exact H1 | exact H2].
Qed.

Lemma C5_unrecognized_ignored_witness :
  in_alphabet "q" = false /\ ends_in_start "nx" = false /\
  parse ("nx" +:+ String "q" "r") "VL" = parse ("nx" +:+ "r") "VL".
Proof.
  split; [reflexivity|]. split; [reflexivity|].
  apply (C5_unrecognized_ignored "nx" "r" "VL" "q"); reflexivity.
Defined.

(** ** The two result lists grow together *)

Lemma string_of_list_snoc (l : list ascii) (c : ascii) :
  string_of_list_ascii (l ++ [c]) = string_of_list_ascii l +:+ chr c.
Proof.
  induction l as [|x l IH]; [reflexivity|].
  simpl. rewrite IH. reflexivity.
Qed.

Lemma string_snoc_ind (P : string -> Prop) :
  P EmptyString -> (forall s c, P s -> P (s +:+ chr c)) -> forall s, P s.
Proof.
  intros H0 Hs s. rewrite <- (string_of_list_ascii_of_string s).
  induction (list_ascii_of_string s) as [|c l IH] using rev_ind; [exact H0|].
  rewrite string_of_list_snoc. now apply Hs.
Qed.

Lemma step_lockstep (st : locals) (c : ascii) :
  (channel_names (step two_char_expr_starts st c) = channel_names st /\
   channel_keys (step two_char_expr_starts st c) = channel_keys st) \/
  (exists n k,
     channel_names (step two_char_expr_starts st c) = channel_names st ++ [n] /\
     channel_keys (step two_char_expr_starts st c) = channel_keys st ++ [k]).
Proof.
  rewrite step_unfold. cbv zeta.
  destruct (is_start c); [left; split; reflexivity|].
  destruct (truthy (char_store st)); [right; eauto|].
  destruct (truthy (map_char c (channel_selector st)));
    [right; eauto | left; split; reflexivity].
Qed.

Lemma parse_snoc (cs vl : string) (c : ascii) :
  parse (cs +:+ chr c) vl = parse cs vl \/
  exists path key, parse (cs +:+ chr c) vl = cat (parse cs vl) ([path], [key]).
Proof.
  rewrite !parse_unfold, scan_app. simpl. rewrite !channel_map_eta.
  destruct (step_lockstep (scan two_char_expr_starts cs init) c)
    as [[-> ->]|(n & k & -> & ->)]; [left; reflexivity|].
  right. exists (vl +:+ n), k. unfold cat; simpl. now rewrite map_app.
Qed.

Lemma parse_lengths (cs vl : string) :
  length (fst (parse cs vl)) = length (snd (parse cs vl)).
Proof.
  induction cs as [|cs c IH] using string_snoc_ind; [reflexivity|].
  destruct (parse_snoc cs vl c) as [->|(path & key & ->)]; [exact IH|].
  unfold cat; cbn [fst snd]. rewrite !length_app, IH. reflexivity.
Qed.

(** C10: the two lists returned by the parser have the same length, and
    the path and the key found at one index were appended by one and the
    same iteration: the input splits before some character [char] such that
    both lists have exactly [i] elements before [char] is read and reading
    [char] appends that path and that key. *)
Theorem C10_lists_in_lockstep (cs vl : string) :
  length (fst (parse cs vl)) = length (snd (parse cs vl)) /\
  forall (i : nat) (path key : string),
    fst (parse cs vl) !! i = Some path ->
    snd (parse cs vl) !! i = Some key ->
    exists (s0 : string) (char : ascii) (s1 : string),
      cs = s0 +:+ String char s1 /\
      length (fst (parse s0 vl)) = i /\ length (snd (parse s0 vl)) = i /\
      parse (s0 +:+ chr char) vl = cat (parse s0 vl) ([path], [key]).
Proof.
  split; [apply parse_lengths|].
  induction cs as [|cs c IH] using string_snoc_ind; intros i path key Hp Hk.
  - discriminate Hp.
  - destruct (parse_snoc cs vl c) as [E|(p & k & E)]; rewrite E in Hp, Hk.
    + destruct (IH i path key Hp Hk) as (s0 & char & s1 & -> & H1 & H2 & H3).
      exists s0, char, (s1 +:+ chr c). rewrite append_assoc, append_cons. auto.
    + unfold cat in Hp, Hk; cbn [fst snd] in Hp, Hk.
      pose proof (parse_lengths cs vl) as HL.
      destruct (decide (i < length (fst (parse cs vl)))) as [Hlt|Hge].
      * rewrite lookup_app_l in Hp by exact Hlt.
        rewrite lookup_app_l in Hk by (rewrite <- HL; exact Hlt).
        destruct (IH i path key Hp Hk) as (s0 & char & s1 & -> & H1 & H2 & H3).
        exists s0, char, (s1 +:+ chr c). rewrite append_assoc, append_cons. auto.
      * assert (i = length (fst (parse cs vl))) as ->.
        { apply lookup_lt_Some in Hp. rewrite length_app in Hp.
          cbn [length] in Hp. lia. }
        rewrite lookup_app_r in Hp by lia.
        rewrite HL, lookup_app_r in Hk by lia.
        rewrite Nat.sub_diag in Hp, Hk. cbn in Hp, Hk.
        injection Hp as <-. injection Hk as <-.
        exists cs, c, EmptyString. repeat split; auto.
Qed.

Lemma C10_lists_in_lockstep_witness :
  fst (parse "rnx" "VL") !! 1 = Some "VL.Normal.X" /\
  snd (parse "rnx" "VL") !! 1 = Some "nx" /\
  exists (s0 : string) (char : ascii) (s1 : string),
    "rnx" = s0 +:+ String char s1 /\
    length (fst (parse s0 "VL")) = 1 /\ length (snd (parse s0 "VL")) = 1 /\
    parse (s0 +:+ chr char) "VL" = cat (parse s0 "VL") (["VL.Normal.X"], ["nx"]).
Proof.
  split; [reflexivity|]. split; [reflexivity|].
  apply (proj2 (C10_lists_in_lockstep "rnx" "VL") 1 "VL.Normal.X" "nx");
    reflexivity.
Defined.

(** ** Selectors begin with a dot and are longer than any key *)

Lemma length_append (a b : string) :
  String.length (a +:+ b) = String.length a + String.length b.
Proof.
  induction a as [|x a IH]; [reflexivity|].
  rewrite append_cons. simpl. now rewrite IH.
Qed.

Lemma good_single (c : ascii) : is_single c = true -> good_selector (selector_of c).
Proof.
  intros H. unfold is_single in H.
  char_cases H; (split; [reflexivity | simpl; lia]).
Qed.

Lemma good_start (p : ascii) : is_start p = true -> good_selector (selector_of p).
Proof.
  intros H. unfold is_start in H.
  char_cases H; (split; [reflexivity | simpl; lia]).
Qed.

Lemma good_append (a b : string) : good_selector a -> good_selector (a +:+ b).
Proof.
  intros [Hd Hl]. split.
  - destruct a; [discriminate | now rewrite append_cons].
  - rewrite length_append. lia.
Qed.

Lemma good_finish (p c : ascii) :
  is_start p = true -> is_start c = false ->
  good_selector (add_component c (map_char c (selector_of p))).
Proof.
  intros Hp Hc. destruct (is_single c) eqn:H1.
  - rewrite finish_single by exact H1. now apply good_single.
  - destruct (is_suffix c) eqn:H2.
    + rewrite finish_suffix by assumption. now apply good_append, good_start.
    + rewrite finish_other by assumption. now apply good_start.
Qed.

Lemma step_well_formed (st : locals) (c : ascii) :
  well_formed st -> well_formed (step two_char_expr_starts st c).
Proof.
  intros (Hpend & Hns & Hks). destruct (is_start c) eqn:Hc.
  - split; [right; exists c; split; [exact Hc | now apply step_start_pending]|].
    now rewrite step_start by exact Hc.
  - split; [left; now apply step_settles|].
    destruct Hpend as [Hs|(p & Hp & Hpd)].
    + destruct (is_single c) eqn:H1.
      * rewrite step_single by assumption. simpl. split.
        -- apply Forall_app; split; [exact Hns|].
           constructor; [now apply good_single | constructor].
        -- apply Forall_app; split; [exact Hks|].
           constructor; [simpl; lia | constructor].
      * now rewrite step_idle by assumption.
    + rewrite (step_finish st p c Hpd Hp Hc). simpl. split.
      * apply Forall_app; split; [exact Hns|].
        constructor; [now apply good_finish | constructor].
      * apply Forall_app; split; [exact Hks|].
        constructor; [simpl; lia | constructor].
Qed.

Lemma scan_well_formed (s : string) : forall st,
  well_formed st -> well_formed (scan two_char_expr_starts s st).
Proof.
  induction s as [|c s IH]; intros st H; [exact H|].
  simpl. now apply IH, step_well_formed.
Qed.

Lemma init_well_formed : well_formed init.
Proof. split; [left; split; reflexivity | split; constructor]. Qed.

Lemma scan_init_well_formed (s : string) :
  well_formed (scan two_char_expr_starts s init).
Proof. apply scan_well_formed, init_well_formed. Qed.

Lemma selectors_dotted (s : string) :
  Forall (fun sel => dotted sel = true)
         (channel_names (scan two_char_expr_starts s init)).
Proof.
  destruct (scan_init_well_formed s) as (_ & H & _).
  eapply Forall_impl; [exact H|]. now intros sel [Hd _].
Qed.

(** ** The channel loader *)

Section Loader.
Import Reader.
Context {C : Collaborators}.

Lemma store_channels_keeps (zipped : list (Buf * string)) : forall self,
  read_log (snd (store_channels self zipped)) = read_log self /\
  inputfile (snd (store_channels self zipped)) = inputfile self.
Proof.
  induction zipped as [|[channel key] rest IH]; intros self; [split; reflexivity|].
  simpl. destruct (convert self channel) as [e|v]; [split; reflexivity|].
  destruct (IH (set_channels self (<[key := v]> (channels self)))) as [-> ->].
  split; reflexivity.
Qed.

(** The comprehension [[c for c in channel_names if c not in self.channels]]
    keeps every name that is not a key of the mapping. *)
Lemma filter_keeps_names (m : gmap string Val) (names : list string) :
  (forall n, n ∈ names -> m !! n = None) ->
  filter (fun c => m !! c = None) names = names.
Proof.
  induction names as [|n names IH]; intros H; [reflexivity|].
  rewrite filter_cons_True by (apply H; left).
  f_equal. apply IH. intros n' Hn'. apply H. now right.
Qed.

(** With the file bound, a request whose layer paths are not themselves
    keys of the mapping is read from the file in full, whatever short keys
    the mapping already holds. *)
Lemma load_channels_reads (self : OpenEXRReader) (h : Handle)
    (names keys : list string) :
  inputfile self = Some h -> names <> [] ->
  (forall n, n ∈ names -> channels self !! n = None) ->
  read_log (snd (_load_channels self names keys)) = read_log self ++ [names].
Proof.
  intros Hh Hne Hnames. unfold _load_channels.
  rewrite filter_keeps_names by exact Hnames.
  destruct names as [|n names]; [congruence|]. rewrite Hh.
  destruct (InputFile_channels h (n :: names)) as [e|chans]; [reflexivity|].
  now rewrite (proj1 (store_channels_keeps _ _)).
Qed.

Lemma load_channels_keeps_file (self : OpenEXRReader) (names keys : list string) :
  inputfile (snd (_load_channels self names keys)) = inputfile self.
Proof.
  unfold _load_channels.
  destruct (filter _ names) as [|n names']; [reflexivity|].
  destruct (inputfile self) as [h|] eqn:Hh; [|exact Hh].
  destruct (InputFile_channels h (n :: names')) as [e|chans]; [exact Hh|].
  now rewrite (proj2 (store_channels_keeps _ _)).
Qed.

Lemma parsed_paths_long (cs vl n : string) :
  n ∈ fst (parse cs vl) -> 7 <= String.length n.
Proof.
  rewrite parse_unfold, channel_map_eta. cbn [fst]. intros H.
  apply list_elem_of_fmap in H. destruct H as (sel & -> & Hsel).
  destruct (scan_init_well_formed cs) as (_ & Hns & _).
  rewrite Forall_forall in Hns. destruct (Hns sel Hsel) as [_ Hl].
  rewrite length_append. lia.
Qed.

Lemma parsed_keys_short (cs vl k : string) :
  k ∈ snd (parse cs vl) -> String.length k <= 2.
Proof.
  rewrite parse_unfold, channel_map_eta. cbn [snd]. intros H.
  destruct (scan_init_well_formed cs) as (_ & _ & Hks).
  rewrite Forall_forall in Hks. now apply Hks.
Qed.

(** A mapping that holds only keys of at most two characters, as the
    parser produces them, never filters a parsed layer path out: every
    non-empty parsed request is read from the file in full. *)
Lemma load_parsed_reads (self : OpenEXRReader) (h : Handle)
    (cs vl : string) (keys : list string) :
  inputfile self = Some h ->
  (forall k, is_Some (channels self !! k) -> String.length k <= 2) ->
  fst (parse cs vl) <> [] ->
  read_log (snd (_load_channels self (fst (parse cs vl)) keys)) =
    read_log self ++ [fst (parse cs vl)].
Proof.
  intros Hh Hshort Hne. apply (load_channels_reads self h); auto.
  intros n Hn. apply parsed_paths_long in Hn.
  destruct (channels self !! n) as [v|] eqn:E; [|reflexivity].
  assert (String.length n <= 2) by (apply Hshort; rewrite E; eauto). lia.
Qed.

End Loader.

Section LoaderOnFixture.
Import Reader.
Local Existing Instance Fixture.collaborators.

(** C3 at the failing input: after a first load both short keys ["r"]
    and ["g"] are keys of the mapping, yet invoking the loader again with
    the same request calls [inputfile.channels] a second time, with both
    layer paths. *)
Theorem C3_reload_reads_again :
  read_log Fixture.loaded_once =
    [["BAT_ViewLayer.Combined.R"; "BAT_ViewLayer.Combined.G"]] /\
  channel_keys Fixture.loaded_once = ["r"; "g"] /\
  channels Fixture.loaded_once !! "r" = Some [1; 2]%Z /\
  channels Fixture.loaded_once !! "g" = Some [3; 4]%Z /\
  read_log (snd (_load_channels Fixture.loaded_once
                   (channel_names Fixture.loaded_once) (channel_keys Fixture.loaded_once))) =
    [["BAT_ViewLayer.Combined.R"; "BAT_ViewLayer.Combined.G"];
     ["BAT_ViewLayer.Combined.R"; "BAT_ViewLayer.Combined.G"]].
Proof. repeat split; vm_compute; reflexivity. Qed.

End LoaderOnFixture.

(** ** The session *)

Section Session.
Import Reader.
Context {C : Collaborators}.

Lemma enter_binds_file (self self' : OpenEXRReader) (exr : OpenEXRWrapper) :
  __enter__ self = (inr exr, self') ->
  exists h, InputFile (filepath self) = inr h /\ inputfile self' = Some h.
Proof.
  unfold __enter__. destruct (InputFile (filepath self)) as [e|h]; [discriminate|].
  destruct (_load_channels _ _ _) as [[e|u] self1] eqn:E; [discriminate|].
  intros H. injection H as _ <-. exists h. split; [reflexivity|].
  match type of E with
  | _load_channels ?s ?ns ?ks = _ =>
      pose proof (load_channels_keeps_file s ns ks) as Hk; rewrite E in Hk
  end.
  exact Hk.
Qed.

(** An exception of the loader inside [__enter__] leaves the [with]
    statement at once: [__exit__] does not run, and the file object that
    [__enter__] has just bound is the one [InputFile] returned, with no
    [close()] applied to it. *)
Lemma enter_failure_skips_exit {A : Type} (self : OpenEXRReader) (h : Handle) (e : exn)
    (body : OpenEXRWrapper -> Handle -> (exn + A) * Handle) :
  InputFile (filepath self) = inr h ->
  fst (_load_channels (set_inputfile self (Some h))
         (channel_names self) (channel_keys self)) = inl e ->
  fst (with_reader self body) = inl e /\
  inputfile (snd (with_reader self body)) = Some h.
Proof.
  intros Hopen Hload. unfold with_reader, __enter__. rewrite Hopen.
  pose proof (load_channels_keeps_file (set_inputfile self (Some h))
                (channel_names self) (channel_keys self)) as Hkeep.
  change (channel_names (set_inputfile self (Some h))) with (channel_names self).
  change (channel_keys (set_inputfile self (Some h))) with (channel_keys self).
  destruct (_load_channels _ _ _) as [[e'|u] self1]; simpl in *; [|discriminate].
  injection Hload as ->. split; [reflexivity | exact Hkeep].
Qed.

Context {K : CloseContract C}.

(** Once [__enter__] has returned, the [with] statement closes the file
    whatever the block does with it and however the block ends, and the
    outcome of the block is the outcome of the statement. *)
Lemma block_exit_closes {A : Type} (self self' : OpenEXRReader)
    (exr : OpenEXRWrapper) (body : OpenEXRWrapper -> Handle -> (exn + A) * Handle) :
  __enter__ self = (inr exr, self') ->
  file_closed (snd (with_reader self body)) = true /\
  exists h, inputfile self' = Some h /\
            fst (with_reader self body) = fst (body exr h).
Proof.
  intros He. destruct (enter_binds_file _ _ _ He) as (h & _ & Hh).
  unfold with_reader. rewrite He. unfold use_inputfile. rewrite Hh.
  destruct (body exr h) as [r h1] eqn:Eb. unfold __exit__. cbn [inputfile set_inputfile].
  destruct (close_closes h1) as (h2 & -> & Hclosed).
  split; [|exists h; rewrite Eb; split; reflexivity].
  unfold file_closed. cbn [inputfile set_inputfile snd]. now rewrite Hclosed.
Qed.

(** A direct [close()] followed by the [close()] of [__exit__]: neither
    raises, and the file is closed. *)
Lemma close_twice (self : OpenEXRReader) (h : Handle) :
  inputfile self = Some h ->
  fst (use_inputfile direct_close self) = inr tt /\
  fst (__exit__ (snd (use_inputfile direct_close self))) = inr tt /\
  file_closed (snd (__exit__ (snd (use_inputfile direct_close self)))) = true.
Proof.
  intros Hh. unfold use_inputfile, direct_close. rewrite Hh.
  destruct (close_closes h) as (h1 & -> & _).
  unfold __exit__. cbn [inputfile set_inputfile snd fst].
  destruct (close_closes h1) as (h2 & -> & Hclosed).
  unfold file_closed. cbn [inputfile set_inputfile snd fst].
  now rewrite Hclosed.
Qed.

End Session.

Section SessionOnFixture.
Import Reader.
Local Existing Instance Fixture.collaborators.

Lemma fixture_contract : CloseContract Fixture.collaborators.
Proof.
  split.
  - intros path h. simpl. unfold Fixture.open_file.
    destruct (Fixture.assoc path Fixture.disk); [|discriminate].
    intros H. injection H as <-. reflexivity.
  - intros h. eexists. split; reflexivity.
Qed.

(** C7 at the failing input: ["frame.exr"] exists but has no channel
    [BAT_ViewLayer.Normal.W]; for the channel string ["nw"] the file is
    opened, the read raises inside [__enter__], the exception leaves the
    [with] statement, and the file object is still open. *)
Theorem C7_failed_load_leaves_file_open :
  Fixture.open_file "frame.exr" = inr (Fixture.mkFile
    [("BAT_ViewLayer.Combined.R", [1; 2]%Z);
     ("BAT_ViewLayer.Combined.G", [3; 4]%Z);
     ("BAT_ViewLayer.Normal.X", [5; 6]%Z)] true) /\
  channel_names Fixture.missing_channel = ["BAT_ViewLayer.Normal.W"] /\
  fst (with_reader Fixture.missing_channel Fixture.idle_block) =
    inl (Raised Fixture.MissingChannelError) /\
  file_left_open (snd (with_reader Fixture.missing_channel Fixture.idle_block)) = true /\
  file_closed (snd (with_reader Fixture.missing_channel Fixture.idle_block)) = false.
Proof. repeat split. Qed.

(** The same file read with a channel string it can serve: the block is
    entered and the file is closed afterwards, also when the block raises
    and when the block has closed the file itself. *)
Example session_closes_on_fixture :
  file_closed (snd (with_reader Fixture.present_channels Fixture.idle_block)) = true /\
  fst (with_reader Fixture.present_channels Fixture.raising_block) =
    inl (Raised Fixture.OpenError) /\
  file_closed (snd (with_reader Fixture.present_channels Fixture.raising_block)) = true /\
  fst (with_reader Fixture.present_channels Fixture.closing_block) = inr tt /\
  file_closed (snd (with_reader Fixture.present_channels Fixture.closing_block)) = true.
Proof. repeat split. Qed.

End SessionOnFixture.


(** * Further properties of the parser *)

Import Codes.

(** ** Cutting and extending the channel string *)

Lemma locals_eta (st : locals) :
  st = prepend (channel_names st) (channel_keys st)
         (Locals (char_store st) (channel_selector st) [] []).
Proof. destruct st as [cs sel ns ks]. unfold prepend; simpl. now rewrite !app_nil_r. Qed.

Lemma scan_from (s : string) (st : locals) :
  scan two_char_expr_starts s st =
    prepend (channel_names st) (channel_keys st)
      (scan two_char_expr_starts s (Locals (char_store st) (channel_selector st) [] [])).
Proof. rewrite (locals_eta st) at 1. apply scan_prepend. Qed.

Lemma parse_cut_at_start (s1 rest vl : string) (p : ascii) :
  is_start p = true ->
  parse (s1 +:+ String p rest) vl = cat (parse s1 vl) (parse (String p rest) vl).
Proof.
  intros Hp. rewrite !parse_unfold, scan_app. simpl.
  rewrite (step_start (scan two_char_expr_starts s1 init) p Hp).
  rewrite (step_start init p Hp). rewrite scan_from. cbn [char_store channel_selector
    channel_names channel_keys]. now rewrite channel_map_prepend.
Qed.

(** X1: a channel string can be parsed in two pieces whenever the cut does
    not separate a prefix character from the character that closes it: if
    the first piece does not end in a prefix character, or the second piece
    begins with one, the result of the whole is the result of the first
    piece followed by the result of the second. *)
Theorem X1_parse_in_pieces (s1 s2 vl : string) :
  ends_in_start s1 = false \/ begins_with_start s2 = true ->
  parse (s1 +:+ s2) vl = cat (parse s1 vl) (parse s2 vl).
Proof.
  intros [H|H]; [now apply parse_cut|].
  destruct s2 as [|p rest]; [discriminate|]. now apply parse_cut_at_start.
Qed.

Lemma X1_parse_in_pieces_witness :
  (ends_in_start "rn" = false \/ begins_with_start "fxd" = true) /\
  parse ("rn" +:+ "fxd") "VL" = cat (parse "rn" "VL") (parse "fxd" "VL").
Proof.
  split; [right; reflexivity|].
  apply (X1_parse_in_pieces "rn" "fxd" "VL"). right; reflexivity.
Defined.

(** X2: extending a channel string only appends: the paths and keys of a
    string are an initial segment of the paths and keys of every
    extension of it, with as many new paths as new keys. *)
Theorem X2_extension_appends (s1 s2 vl : string) :
  exists more : list string * list string,
    parse (s1 +:+ s2) vl = cat (parse s1 vl) more /\
    length (fst more) = length (snd more).
Proof.
  exists (channel_map vl (scan two_char_expr_starts s2
            (Locals (char_store (scan two_char_expr_starts s1 init))
                    (channel_selector (scan two_char_expr_starts s1 init)) [] []))).
  assert (E : parse (s1 +:+ s2) vl =
              cat (parse s1 vl)
                  (channel_map vl (scan two_char_expr_starts s2
                     (Locals (char_store (scan two_char_expr_starts s1 init))
                             (channel_selector (scan two_char_expr_starts s1 init)) [] [])))).
  { rewrite !parse_unfold, scan_app, scan_from, channel_map_prepend. reflexivity. }
  split; [exact E|].
  pose proof (parse_lengths (s1 +:+ s2) vl) as HL. rewrite E in HL.
  pose proof (parse_lengths s1 vl) as H1.
  unfold cat in HL; cbn [fst snd] in HL. rewrite !length_app in HL. lia.
Qed.

(** ** Characters that emit nothing *)

Lemma suffix_is_idle (c : ascii) :
  is_suffix c = true -> is_single c = false /\ is_start c = false.
Proof. intros H. unfold is_suffix in H. char_cases H; split; reflexivity. Qed.

Lemma parse_idle (s1 s2 vl : string) (c : ascii) :
  is_single c = false -> is_start c = false -> ends_in_start s1 = false ->
  parse (s1 +:+ String c s2) vl = parse (s1 +:+ s2) vl.
Proof.
  intros H1 H2 Hs1. change (String c s2) with (chr c +:+ s2).
  apply parse_skip. simpl.
  apply step_idle; [now apply scan_init_settled | exact H1 | exact H2].
Qed.

(** X3: a suffix character ([x], [y], [z] or [w]) that does not directly
    follow a prefix character is skipped: the result is the one obtained
    with the character deleted. *)
Theorem X3_stray_suffix_skipped (s1 s2 vl : string) (c : ascii) :
  is_suffix c = true -> ends_in_start s1 = false ->
  parse (s1 +:+ String c s2) vl = parse (s1 +:+ s2) vl.
Proof.
  intros Hc Hs1. destruct (suffix_is_idle c Hc) as [H1 H2].
  now apply parse_idle.
Qed.

Lemma X3_stray_suffix_skipped_witness :
  is_suffix "x" = true /\ ends_in_start "r" = false /\
  parse ("r" +:+ String "x" "g") "VL" = parse ("r" +:+ "g") "VL".
Proof.
  split; [reflexivity|]. split; [reflexivity|].
  apply (X3_stray_suffix_skipped "r" "g" "VL" "x"); reflexivity.
Defined.

Lemma not_code_letter (c : ascii) :
  contains code_letters c = false -> is_single c = false /\ is_start c = false.
Proof.
  change code_letters with (single_codes +:+ two_char_expr_starts).
  rewrite contains_app. intros H. apply orb_false_iff in H. exact H.
Qed.

Lemma scan_no_code_letter (s : string) : forall st,
  settled st -> none_in code_letters s = true ->
  scan two_char_expr_starts s st = st.
Proof.
  induction s as [|c s IH]; intros st Hst H; [reflexivity|].
  simpl in H. apply andb_true_iff in H. destruct H as [Hc Hs].
  apply negb_true_iff in Hc. destruct (not_code_letter c Hc) as [H1 H2].
  simpl. rewrite (step_idle st c Hst H1 H2). now apply IH.
Qed.

(** X4: a channel string without any of the nine letters [cirgbadnf]
    resolves to nothing, whatever else it contains: both result lists are
    empty.  In particular the empty channel string does. *)
Theorem X4_no_code_letter_no_channel (cs vl : string) :
  none_in code_letters cs = true -> parse cs vl = ([], []).
Proof.
  intros H. rewrite parse_unfold, scan_no_code_letter; [reflexivity| |exact H].
  split; reflexivity.
Qed.

Lemma X4_no_code_letter_no_channel_witness :
  none_in code_letters "xyz, w!" = true /\ parse "xyz, w!" "VL" = ([], []).
Proof.
  split; [reflexivity|].
  apply (X4_no_code_letter_no_channel "xyz, w!" "VL"); reflexivity.
Defined.

(** ** Results as lists of well-formed codes *)

Lemma parse_double_head (s2 vl : string) (p c : ascii) :
  is_start p = true -> is_start c = false ->
  parse (String p (String c s2)) vl =
    cat ([vl +:+ code_selector (Double p c)], [code_key (Double p c)]) (parse s2 vl).
Proof. intros Hp Hc. exact (parse_two_chars EmptyString s2 vl p c Hp Hc). Qed.

Lemma parse_spell (ks : list code) (vl : string) :
  forallb code_ok ks = true ->
  parse (spell ks) vl = (map (fun k => vl +:+ code_selector k) ks, map code_key ks).
Proof.
  induction ks as [|k ks IH]; intros H; [reflexivity|].
  simpl in H. apply andb_true_iff in H. destruct H as [Hk Hks].
  specialize (IH Hks). destruct k as [c|p c]; cbn [spell code_key].
  - unfold chr. rewrite append_cons. change (EmptyString +:+ spell ks) with (spell ks).
    rewrite parse_single_head by exact Hk. rewrite IH. reflexivity.
  - unfold chr. rewrite !append_cons. change (EmptyString +:+ spell ks) with (spell ks).
    cbn [code_ok] in Hk. apply andb_true_iff in Hk. destruct Hk as [Hp Hc].
    apply negb_true_iff in Hc.
    rewrite parse_double_head by assumption. rewrite IH. reflexivity.
Qed.

(** X5: a channel string that spells a list of well-formed codes (each a
    single-character code, or a prefix character followed by a character
    that is not a prefix) resolves every one of them, in order: the key of
    each is its own characters and the path is the prefix followed by its
    selector. *)
Theorem X5_spelled_codes_resolve (ks : list code) (vl : string) :
  forallb code_ok ks = true ->
  parse (spell ks) vl = (map (fun k => vl +:+ code_selector k) ks, map code_key ks).
Proof. apply parse_spell. Qed.

Lemma X5_spelled_codes_resolve_witness :
  forallb code_ok [Single "d"; Double "n" "z"; Single "a"; Double "f" "y"] = true /\
  parse (spell [Single "d"; Double "n" "z"; Single "a"; Double "f" "y"]) "VL" =
    (map (fun k => "VL" +:+ code_selector k)
         [Single "d"; Double "n" "z"; Single "a"; Double "f" "y"],
     map code_key [Single "d"; Double "n" "z"; Single "a"; Double "f" "y"]).
Proof.
  split; [reflexivity|].
  apply (X5_spelled_codes_resolve
           [Single "d"; Double "n" "z"; Single "a"; Double "f" "y"] "VL").
  reflexivity.
Defined.

Lemma explained_snoc (st : locals) (k : code) :
  explained st -> code_ok k = true ->
  explained (Locals EmptyString EmptyString
               (channel_names st ++ [code_selector k])
               (channel_keys st ++ [code_key k])).
Proof.
  intros (ks & Hok & Hn & Hk) Hc. exists (ks ++ [k]). cbn [channel_names channel_keys].
  rewrite forallb_app, !map_app, Hok, Hn, Hk. simpl. now rewrite Hc.
Qed.

Lemma step_explained (st : locals) (c : ascii) :
  well_formed st -> explained st -> explained (step two_char_expr_starts st c).
Proof.
  intros (Hpend & _) He. destruct (is_start c) eqn:Hc.
  - rewrite step_start by exact Hc. exact He.
  - destruct Hpend as [Hs|(p & Hp & Hpd)].
    + destruct (is_single c) eqn:H1.
      * rewrite step_single by assumption.
        exact (explained_snoc st (Single c) He H1).
      * now rewrite step_idle by assumption.
    + rewrite (step_finish st p c Hpd Hp Hc).
      apply (explained_snoc st (Double p c) He). cbn [code_ok].
      now rewrite Hp, Hc.
Qed.

Lemma scan_explained (s : string) : forall st,
  well_formed st -> explained st -> explained (scan two_char_expr_starts s st).
Proof.
  induction s as [|c s IH]; intros st Hw He; [exact He|].
  simpl. apply IH; [now apply step_well_formed | now apply step_explained].
Qed.

Lemma parse_codes (cs vl : string) :
  exists ks : list code,
    forallb code_ok ks = true /\
    parse cs vl = (map (fun k => vl +:+ code_selector k) ks, map code_key ks).
Proof.
  destruct (scan_explained cs init init_well_formed) as (ks & Hok & Hn & Hk).
  { exists []. repeat split. }
  exists ks. split; [exact Hok|].
  rewrite parse_unfold, channel_map_eta, Hn, Hk, map_map. reflexivity.
Qed.

(** X6: whatever the channel string, the result is that of a list of
    well-formed codes: there are codes, each a single-character code or a
    prefix character followed by a character that is not a prefix, whose
    selectors (after the prefix) and whose characters are exactly the
    paths and the keys returned, in order. *)
Theorem X6_result_is_well_formed (cs vl : string) :
  exists ks : list code,
    forallb code_ok ks = true /\
    parse cs vl = (map (fun k => vl +:+ code_selector k) ks, map code_key ks).
Proof. apply parse_codes. Qed.

Lemma join_keys (ks : list code) : join (map code_key ks) = spell ks.
Proof. induction ks as [|k ks IH]; [reflexivity|]. simpl. now rewrite IH. Qed.

(** X7: the keys of a result, joined end to end, form a channel string
    that resolves to the same result: parsing normalises a channel string
    and parsing the normal form changes nothing. *)
Theorem X7_joined_keys_reparse (cs vl : string) :
  parse (join (snd (parse cs vl))) vl = parse cs vl.
Proof.
  destruct (parse_codes cs vl) as (ks & Hok & ->). cbn [snd].
  rewrite join_keys. now apply parse_spell.
Qed.

Lemma code_selector_known (k : code) :
  code_ok k = true -> In (code_selector k) all_selectors.
Proof.
  destruct k as [c|p c]; cbn [code_ok code_selector]; intros H.
  - unfold is_single in H. char_cases H; simpl; tauto.
  - apply andb_true_iff in H. destruct H as [Hp Hc]. apply negb_true_iff in Hc.
    destruct (is_single c) eqn:H1.
    + rewrite finish_single by exact H1.
      unfold is_single in H1. char_cases H1; simpl; tauto.
    + destruct (is_suffix c) eqn:H2.
      * rewrite finish_suffix by assumption.
        unfold is_start in Hp. unfold is_suffix in H2.
        char_cases Hp; char_cases H2; simpl; tauto.
      * rewrite finish_other by assumption.
        unfold is_start in Hp. char_cases Hp; simpl; tauto.
Qed.

(** X8: every path returned is the prefix followed by one of seventeen
    selectors; no other layer name is ever built. *)
Theorem X8_paths_from_seventeen (cs vl path : string) :
  In path (fst (parse cs vl)) ->
  exists sel, In sel all_selectors /\ path = vl +:+ sel.
Proof.
  destruct (parse_codes cs vl) as (ks & Hok & ->). cbn [fst]. intros H.
  apply in_map_iff in H. destruct H as (k & <- & Hk).
  exists (code_selector k). split; [|reflexivity].
  apply code_selector_known. rewrite forallb_forall in Hok. now apply Hok.
Qed.

Lemma X8_paths_from_seventeen_witness :
  In "VL.Vector" (fst (parse "nxfqr" "VL")) /\
  exists sel, In sel all_selectors /\ "VL.Vector" = "VL" +:+ sel.
Proof.
  assert (H : In "VL.Vector" (fst (parse "nxfqr" "VL"))) by (simpl; tauto).
  split; [exact H|].
  exact (X8_paths_from_seventeen "nxfqr" "VL" "VL.Vector" H).
Defined.

Lemma in_pairs_of_codes (ks : list code) (f g : code -> string) (path key : string) :
  In (path, key) (combine (map f ks) (map g ks)) ->
  exists k, In k ks /\ path = f k /\ key = g k.
Proof.
  induction ks as [|k ks IH]; simpl; [intros []|].
  intros [H|H].
  - injection H as <- <-. exists k. auto.
  - destruct (IH H) as (k' & Hk' & -> & ->). exists k'. auto.
Qed.

Lemma selector_of_code_key (k : code) : selector_of_key (code_key k) = code_selector k.
Proof. destruct k; reflexivity. Qed.

(** X9: the key decides the path: every pair returned has the path that
    belongs to its key, so two pairs with the same key have the same path,
    wherever they stand in the result. *)
Theorem X9_key_decides_path (cs vl : string) :
  (forall path key,
     In (path, key) (pairs (parse cs vl)) -> path = vl +:+ selector_of_key key) /\
  (forall path1 path2 key,
     In (path1, key) (pairs (parse cs vl)) ->
     In (path2, key) (pairs (parse cs vl)) -> path1 = path2).
Proof.
  assert (G : forall path key,
            In (path, key) (pairs (parse cs vl)) -> path = vl +:+ selector_of_key key).
  { destruct (parse_codes cs vl) as (ks & Hok & ->). unfold pairs; cbn [fst snd].
    intros path key H. apply in_pairs_of_codes in H.
    destruct H as (k & _ & -> & ->). now rewrite selector_of_code_key. }
  split; [exact G|].
  intros path1 path2 key H1 H2. now rewrite (G _ _ H1), (G _ _ H2).
Qed.

Lemma X9_key_decides_path_witness :
  In ("VL.Normal.X", "nx") (pairs (parse "nxrnx" "VL")) /\
  "VL.Normal.X" = "VL" +:+ selector_of_key "nx".
Proof.
  assert (H : In ("VL.Normal.X", "nx") (pairs (parse "nxrnx" "VL"))) by (simpl; tauto).
  split; [exact H|].
  exact (proj1 (X9_key_decides_path "nxrnx" "VL") "VL.Normal.X" "nx" H).
Defined.

(** ** Keys are made of the characters of the channel string *)

Lemma list_of_append (a b : string) :
  list_ascii_of_string (a +:+ b) = list_ascii_of_string a ++ list_ascii_of_string b.
Proof.
  induction a as [|x a IH]; [reflexivity|].
  rewrite append_cons. simpl. now rewrite IH.
Qed.

Lemma key_chars_snoc (keys : list string) (key : string) :
  key_chars (keys ++ [key]) = key_chars keys ++ list_ascii_of_string key.
Proof.
  unfold key_chars. rewrite map_app, concat_app. simpl. now rewrite app_nil_r.
Qed.

(** The characters already used by keys, followed by the pending
    character if there is one. *)
Lemma step_consumes (st : locals) (c : ascii) (pre : list ascii) :
  key_chars (channel_keys st) ++ list_ascii_of_string (char_store st)
    `sublist_of` pre ->
  key_chars (channel_keys (step two_char_expr_starts st c)) ++
    list_ascii_of_string (char_store (step two_char_expr_starts st c))
    `sublist_of` pre ++ [c].
Proof.
  intros H. rewrite step_unfold. cbv zeta.
  destruct (is_start c); cbn [channel_keys char_store].
  - apply sublist_app; [|reflexivity].
    etransitivity; [|exact H]. now apply sublist_inserts_r.
  - destruct (char_store st) as [|x cs] eqn:Ecs; cbn [truthy].
    + simpl in H. rewrite app_nil_r in H.
      destruct (truthy (map_char c (channel_selector st)));
        cbn [channel_keys char_store].
      * rewrite key_chars_snoc. simpl. rewrite app_nil_r.
        apply sublist_app; [exact H | reflexivity].
      * simpl. rewrite app_nil_r. now apply sublist_inserts_r.
    + cbn [channel_keys char_store].
      rewrite key_chars_snoc, list_of_append. simpl (list_ascii_of_string EmptyString).
      rewrite app_nil_r, app_assoc.
      apply sublist_app; [exact H | reflexivity].
Qed.

Lemma scan_consumes (s : string) : forall (st : locals) (pre : list ascii),
  key_chars (channel_keys st) ++ list_ascii_of_string (char_store st)
    `sublist_of` pre ->
  key_chars (channel_keys (scan two_char_expr_starts s st)) ++
    list_ascii_of_string (char_store (scan two_char_expr_starts s st))
    `sublist_of` pre ++ list_ascii_of_string s.
Proof.
  induction s as [|c s IH]; intros st pre H; simpl.
  - now rewrite app_nil_r.
  - change (pre ++ c :: list_ascii_of_string s)
      with (pre ++ [c] ++ list_ascii_of_string s).
    rewrite app_assoc. apply IH. now apply step_consumes.
Qed.

(** X10: the keys are made of the characters of the channel string, in
    order, each character used at most once: the characters of all keys,
    read from left to right, form a subsequence of the channel string. *)
Theorem X10_keys_subsequence (cs vl : string) :
  key_chars (snd (parse cs vl)) `sublist_of` list_ascii_of_string cs.
Proof.
  pose proof (scan_consumes cs init [] (sublist_nil_l _)) as H.
  rewrite app_nil_l in H. rewrite parse_unfold, channel_map_eta. cbn [snd].
  etransitivity; [|exact H]. now apply sublist_inserts_r.
Qed.

Lemma scan_count (s : string) : forall st : locals,
  length (channel_names (scan two_char_expr_starts s st)) <=
    length (channel_names st) + String.length s.
Proof.
  induction s as [|c s IH]; intros st; simpl; [lia|].
  specialize (IH (step two_char_expr_starts st c)).
  destruct (step_lockstep st c) as [[E _]|(n & k & E & _)]; rewrite E in IH.
  - lia.
  - rewrite length_app in IH. simpl in IH. lia.
Qed.

Lemma length_list_of_string (s : string) :
  length (list_ascii_of_string s) = String.length s.
Proof. induction s as [|c s IH]; [reflexivity|]. simpl. now rewrite IH. Qed.

(** X11: a channel string of [n] characters resolves to at most [n]
    channels, and all keys together have at most [n] characters. *)
Theorem X11_result_bounded (cs vl : string) :
  length (fst (parse cs vl)) <= String.length cs /\
  length (key_chars (snd (parse cs vl))) <= String.length cs.
Proof.
  split.
  - rewrite parse_unfold, channel_map_eta. cbn [fst]. rewrite length_map.
    exact (scan_count cs init).
  - pose proof (scan_consumes cs init [] (sublist_nil_l _)) as H.
    apply sublist_length in H. rewrite app_nil_l, length_app in H.
    rewrite !length_list_of_string in H.
    rewrite parse_unfold, channel_map_eta. cbn [snd]. lia.
Qed.

(** * Further properties of the loader *)

Section LoaderMore.
Import Reader Invariants.
Context {C : Collaborators}.

Lemma lookup_combine {A B : Type} (l1 : list A) (l2 : list B) (i : nat) (a : A) (b : B) :
  combine l1 l2 !! i = Some (a, b) <-> l1 !! i = Some a /\ l2 !! i = Some b.
Proof.
  revert l2 i. induction l1 as [|x l1 IH]; intros [|y l2] [|i]; simpl;
    try (split; [discriminate | intros [? ?]; discriminate]).
  - split; [intros H; injection H as -> ->; auto | intros [H1 H2]; congruence].
  - apply IH.
Qed.

Lemma convert_set_channels (self : OpenEXRReader) (m : gmap string Val) (b : Buf) :
  convert (set_channels self m) b = convert self b.
Proof. reflexivity. Qed.

(** The loop changes nothing but the mapping. *)
Lemma store_channels_only_channels (z : list (Buf * string)) : forall self,
  snd (store_channels self z) =
    set_channels self (channels (snd (store_channels self z))).
Proof.
  induction z as [|[b k] z IH]; intros self; simpl.
  - now destruct self.
  - destruct (convert self b) as [e|v]; [now destruct self|].
    rewrite IH at 1. reflexivity.
Qed.

(** The loop never removes an entry. *)
Lemma store_channels_grows (z : list (Buf * string)) : forall self k,
  is_Some (channels self !! k) ->
  is_Some (channels (snd (store_channels self z)) !! k).
Proof.
  induction z as [|[b k'] z IH]; intros self k H; simpl; [exact H|].
  destruct (convert self b) as [e|v]; [exact H|].
  apply IH. cbn [channels set_channels].
  destruct (decide (k' = k)) as [->|Hne].
  - rewrite lookup_insert_eq. eauto.
  - now rewrite lookup_insert_ne.
Qed.

(** The loop writes only under the keys it is given. *)
Lemma store_channels_frame (z : list (Buf * string)) : forall self k,
  ~ In k (map snd z) ->
  channels (snd (store_channels self z)) !! k = channels self !! k.
Proof.
  induction z as [|[b k'] z IH]; intros self k H; simpl; [reflexivity|].
  destruct (convert self b) as [e|v]; [reflexivity|].
  simpl in H. rewrite IH by tauto. cbn [channels set_channels].
  apply lookup_insert_ne. tauto.
Qed.

(** Every key found in the mapping after the loop was there before or is
    one of the keys given. *)
Lemma store_channels_keys (z : list (Buf * string)) : forall self k,
  is_Some (channels (snd (store_channels self z)) !! k) ->
  is_Some (channels self !! k) \/ In k (map snd z).
Proof.
  intros self k H. destruct (in_dec string_dec k (map snd z)) as [Hin|Hout];
    [now right|]. left. now rewrite <- (store_channels_frame z self k Hout).
Qed.

(** When the loop ends normally, the value under a key is the conversion
    of the last buffer paired with it. *)
Lemma store_channels_last (z : list (Buf * string)) : forall self i b k,
  fst (store_channels self z) = inr tt ->
  z !! i = Some (b, k) ->
  (forall j b', i < j -> z !! j <> Some (b', k)) ->
  exists v, convert self b = inr v /\
            channels (snd (store_channels self z)) !! k = Some v.
Proof.
  induction z as [|[b0 k0] z IH]; intros self i b k Hok Hi Hlast; [discriminate|].
  simpl in Hok |- *. destruct (convert self b0) as [e|v0] eqn:E0; [discriminate|].
  destruct i as [|i].
  - injection Hi as -> ->. exists v0. split; [exact E0|].
    rewrite store_channels_frame.
    + cbn [channels set_channels]. apply lookup_insert_eq.
    + intros Hin. apply in_map_iff in Hin. destruct Hin as ([b' k'] & Hk' & Hin).
      simpl in Hk'. subst k'. apply list_elem_of_In, list_elem_of_lookup in Hin.
      destruct Hin as [j Hj]. apply (Hlast (S j) b'); [lia | exact Hj].
  - destruct (IH (set_channels self (<[k0 := v0]> (channels self))) i b k Hok Hi)
      as (v & Hv & Hl).
    + intros j b' Hj. apply (Hlast (S j) b'). lia.
    + exists v. split; [exact Hv | exact Hl].
Qed.

(** The loop ends normally when every conversion does. *)
Lemma store_channels_succeeds (z : list (Buf * string)) : forall self,
  (forall b k, In (b, k) z -> exists v, convert self b = inr v) ->
  fst (store_channels self z) = inr tt.
Proof.
  induction z as [|[b k] z IH]; intros self H; simpl; [reflexivity|].
  destruct (H b k (or_introl eq_refl)) as [v ->].
  apply IH. intros b' k' Hin. apply (H b' k'). now right.
Qed.

Lemma load_channels_only_channels (self : OpenEXRReader) (names keys : list string) :
  exists m log,
    snd (_load_channels self names keys) =
      mkReader (filepath self) (channel_string self) (loader self) (resolution self)
        (view_layer_name self) m (two_char_expr_starts self)
        (channel_names self) (channel_keys self) (inputfile self) log.
Proof.
  unfold _load_channels.
  destruct (filter _ names) as [|n names']; [exists (channels self), (read_log self); now destruct self|].
  destruct (inputfile self) as [h|] eqn:Hh;
    [|exists (channels self), (read_log self); destruct self; simpl in *; now subst].
  destruct (InputFile_channels h (n :: names')) as [e|chans].
  - exists (channels self), (read_log self ++ [n :: names']).
    destruct self; simpl in *; now subst.
  - rewrite store_channels_only_channels.
    eexists _, (read_log self ++ [n :: names']). unfold set_channels, log_read.
    cbn. rewrite Hh. reflexivity.
Qed.

End LoaderMore.

Section LoaderProperties.
Import Reader Invariants.
Context {C : Collaborators}.

Lemma load_channels_unfold (self : OpenEXRReader) (names keys : list string) :
  _load_channels self names keys =
    match requested self names with
    | [] => (inr tt, self)
    | _ :: _ =>
        match inputfile self with
        | None => (inl AttributeError, self)
        | Some h =>
            match InputFile_channels h (requested self names) with
            | inl e => (inl (Raised e), log_read self (requested self names))
            | inr chans =>
                store_channels (log_read self (requested self names))
                  (combine chans keys)
            end
        end
    end.
Proof. reflexivity. Qed.

Lemma zipped_keys (chans : list Buf) (keys : list string) (k : string) :
  In k (map snd (combine chans keys)) -> In k keys.
Proof.
  intros H. apply in_map_iff in H. destruct H as ([b k'] & Hk & Hin).
  simpl in Hk. subst k'. now apply in_combine_r in Hin.
Qed.

Lemma load_channels_grows (self : OpenEXRReader) (names keys : list string) (k : string) :
  is_Some (channels self !! k) ->
  is_Some (channels (snd (_load_channels self names keys)) !! k).
Proof.
  rewrite load_channels_unfold.
  destruct (requested self names) as [|n names']; [auto|].
  destruct (inputfile self) as [h|]; [|auto].
  destruct (InputFile_channels h (n :: names')) as [e|chans]; [auto|].
  intros Hk. now apply store_channels_grows.
Qed.

Lemma load_channels_frame (self : OpenEXRReader) (names keys : list string) (k : string) :
  ~ In k keys ->
  channels (snd (_load_channels self names keys)) !! k = channels self !! k.
Proof.
  rewrite load_channels_unfold.
  destruct (requested self names) as [|n names']; [auto|].
  destruct (inputfile self) as [h|]; [|auto].
  destruct (InputFile_channels h (n :: names')) as [e|chans]; [auto|].
  intros Hk. rewrite store_channels_frame; [reflexivity|].
  intros Hin. apply Hk. now apply zipped_keys in Hin.
Qed.

(** X12: whatever its outcome, a call of the loader never removes an
    entry of the mapping, and it leaves the value under every key that is
    not among the requested short keys as it was. *)
Theorem X12_loader_only_adds (self : OpenEXRReader) (names keys : list string) :
  (forall k, is_Some (channels self !! k) ->
             is_Some (channels (snd (_load_channels self names keys)) !! k)) /\
  (forall k, ~ In k keys ->
             channels (snd (_load_channels self names keys)) !! k =
               channels self !! k).
Proof.
  split; intros k Hk; [now apply load_channels_grows | now apply load_channels_frame].
Qed.

(** X13: when [inputfile.channels] raises, the loader passes the
    exception on after that single call: nothing is stored, the mapping
    and the file object are as before. *)
Theorem X13_failed_read_stores_nothing (self : OpenEXRReader) (h : Handle)
    (names keys : list string) (e : LibExn) :
  inputfile self = Some h ->
  requested self names <> [] ->
  InputFile_channels h (requested self names) = inl e ->
  fst (_load_channels self names keys) = inl (Raised e) /\
  channels (snd (_load_channels self names keys)) = channels self /\
  inputfile (snd (_load_channels self names keys)) = Some h /\
  read_log (snd (_load_channels self names keys)) =
    read_log self ++ [requested self names].
Proof.
  intros Hh Hne He. rewrite load_channels_unfold.
  destruct (requested self names) as [|n names'] eqn:Er; [congruence|].
  rewrite Hh, He. cbn. rewrite Hh. repeat split.
Qed.

(** X14: when the loader ends normally after a read, the buffer returned
    at position [i] has been converted and stored under the short key at
    position [i] of the list of keys as it was passed; of several buffers
    paired with one key the last one stays. *)
Theorem X14_buffers_stored_by_position (self : OpenEXRReader) (h : Handle)
    (names keys : list string) (chans : list Buf) :
  inputfile self = Some h ->
  requested self names <> [] ->
  InputFile_channels h (requested self names) = inr chans ->
  fst (_load_channels self names keys) = inr tt ->
  forall (i : nat) (b : Buf) (k : string),
    chans !! i = Some b -> keys !! i = Some k ->
    (forall j, i < j -> j < length chans -> keys !! j <> Some k) ->
    exists v, convert self b = inr v /\
              channels (snd (_load_channels self names keys)) !! k = Some v.
Proof.
  intros Hh Hne Hc. rewrite load_channels_unfold.
  destruct (requested self names) as [|n names'] eqn:Er; [congruence|].
  rewrite Hh, Hc. intros Hok i b k Hb Hk Hlast.
  apply (store_channels_last (combine chans keys) _ i b k Hok).
  - apply lookup_combine. auto.
  - intros j b' Hj Hz. apply lookup_combine in Hz. destruct Hz as [Hz1 Hz2].
    apply (Hlast j Hj); [now apply lookup_lt_Some in Hz1 | exact Hz2].
Qed.

End LoaderProperties.

Section LoaderPropertiesOnFixture.
Import Reader Invariants.
Local Existing Instance Fixture.collaborators.

Lemma X12_loader_only_adds_witness :
  channels Fixture.loaded_once !! "r" = Some [1; 2]%Z /\
  fst (_load_channels Fixture.loaded_once ["BAT_ViewLayer.Normal.X"] ["nx"]) =
    inr tt /\
  channels (snd (_load_channels Fixture.loaded_once
                   ["BAT_ViewLayer.Normal.X"] ["nx"])) !! "nx" = Some [5; 6]%Z /\
  is_Some (channels (snd (_load_channels Fixture.loaded_once
                            ["BAT_ViewLayer.Normal.X"] ["nx"])) !! "r") /\
  ~ In "r" ["nx"] /\
  channels (snd (_load_channels Fixture.loaded_once
                   ["BAT_ViewLayer.Normal.X"] ["nx"])) !! "r" = Some [1; 2]%Z.
Proof.
  assert (H0 : channels Fixture.loaded_once !! "r" = Some [1; 2]%Z)
    by (vm_compute; reflexivity).
  assert (H1 : is_Some (channels Fixture.loaded_once !! "r"))
    by (eexists; exact H0).
  assert (H2 : ~ In "r" ["nx"]) by (intros [H|[]]; discriminate H).
  destruct (X12_loader_only_adds Fixture.loaded_once
              ["BAT_ViewLayer.Normal.X"] ["nx"]) as [Hkeep Hframe].
  split; [exact H0|].
  split; [vm_compute; reflexivity|].
  split; [vm_compute; reflexivity|].
  split; [exact (Hkeep "r" H1)|].
  split; [exact H2|].
  exact (eq_trans (Hframe "r" H2) H0).
Defined.

Lemma X13_failed_read_stores_nothing_witness :
  inputfile Fixture.loaded_once =
    Some (Fixture.mkFile
            [("BAT_ViewLayer.Combined.R", [1; 2]%Z);
             ("BAT_ViewLayer.Combined.G", [3; 4]%Z);
             ("BAT_ViewLayer.Normal.X", [5; 6]%Z)] true) /\
  requested Fixture.loaded_once ["BAT_ViewLayer.Depth.Z"] <> [] /\
  Fixture.read_all
    [("BAT_ViewLayer.Combined.R", [1; 2]%Z);
     ("BAT_ViewLayer.Combined.G", [3; 4]%Z);
     ("BAT_ViewLayer.Normal.X", [5; 6]%Z)]
    (requested Fixture.loaded_once ["BAT_ViewLayer.Depth.Z"]) =
    inl Fixture.MissingChannelError /\
  fst (_load_channels Fixture.loaded_once ["BAT_ViewLayer.Depth.Z"] ["d"]) =
    inl (Raised Fixture.MissingChannelError) /\
  channels (snd (_load_channels Fixture.loaded_once ["BAT_ViewLayer.Depth.Z"] ["d"])) =
    channels Fixture.loaded_once.
Proof.
  assert (H1 : inputfile Fixture.loaded_once =
    Some (Fixture.mkFile
            [("BAT_ViewLayer.Combined.R", [1; 2]%Z);
             ("BAT_ViewLayer.Combined.G", [3; 4]%Z);
             ("BAT_ViewLayer.Normal.X", [5; 6]%Z)] true)) by reflexivity.
  assert (H2 : requested Fixture.loaded_once ["BAT_ViewLayer.Depth.Z"] <> [])
    by (vm_compute; discriminate).
  assert (H3 : Fixture.read_all
    [("BAT_ViewLayer.Combined.R", [1; 2]%Z);
     ("BAT_ViewLayer.Combined.G", [3; 4]%Z);
     ("BAT_ViewLayer.Normal.X", [5; 6]%Z)]
    (requested Fixture.loaded_once ["BAT_ViewLayer.Depth.Z"]) =
    inl Fixture.MissingChannelError) by (vm_compute; reflexivity).
  split; [exact H1|]. split; [exact H2|]. split; [exact H3|].
  pose proof (X13_failed_read_stores_nothing (C := Fixture.collaborators)
                Fixture.loaded_once _ ["BAT_ViewLayer.Depth.Z"] ["d"] _ H1 H2 H3)
    as (G1 & G2 & _).
  split; [exact G1 | exact G2].
Defined.

Lemma X14_buffers_stored_by_position_witness :
  exists v,
    convert (C := Fixture.collaborators) Fixture.present_channels [1; 2]%Z = inr v /\
    channels (snd (_load_channels
                     (set_inputfile Fixture.present_channels
                        (Some (Fixture.mkFile
                                 [("BAT_ViewLayer.Combined.R", [1; 2]%Z)] true)))
                     ["BAT_ViewLayer.Combined.R"] ["r"])) !! "r" = Some v.
Proof.
  apply (X14_buffers_stored_by_position (C := Fixture.collaborators)
           (set_inputfile Fixture.present_channels
              (Some (Fixture.mkFile [("BAT_ViewLayer.Combined.R", [1; 2]%Z)] true)))
           (Fixture.mkFile [("BAT_ViewLayer.Combined.R", [1; 2]%Z)] true)
           ["BAT_ViewLayer.Combined.R"] ["r"] [[1; 2]%Z]
           eq_refl) with (i := 0).
  - vm_compute. discriminate.
  - vm_compute. reflexivity.
  - vm_compute. reflexivity.
  - reflexivity.
  - reflexivity.
  - intros j Hj1 Hj2. simpl in Hj2. lia.
Defined.

End LoaderPropertiesOnFixture.

(** * Further properties of the session *)

Section EnterProperties.
Import Reader Invariants.
Context {C : Collaborators}.

Lemma enter_unfold (self : OpenEXRReader) (h : Handle) :
  InputFile (filepath self) = inr h ->
  __enter__ self =
    match _load_channels (set_inputfile self (Some h))
            (channel_names self) (channel_keys self) with
    | (inl e, s) => (inl e, s)
    | (inr _, s) =>
        (inr (mkWrapper (channel_keys s) (resolution s) (channels s)), s)
    end.
Proof. intros H. unfold __enter__. rewrite H. reflexivity. Qed.

Lemma requested_from_empty (self : OpenEXRReader) (names : list string) :
  channels self = ∅ -> requested self names = names.
Proof.
  intros H. unfold requested. apply filter_keeps_names.
  intros n _. rewrite H. apply lookup_empty.
Qed.

Lemma map_snd_combine {A B : Type} (l1 : list A) (l2 : list B) :
  length l1 = length l2 -> map snd (combine l1 l2) = l2.
Proof.
  revert l2. induction l1 as [|a l1 IH]; intros [|b l2] H; simpl in *;
    try discriminate; [reflexivity|].
  f_equal. apply IH. lia.
Qed.

(** After a loop that ended normally every key given is in the mapping. *)
Lemma store_channels_all_keys (z : list (Buf * string)) : forall self k,
  fst (store_channels self z) = inr tt -> In k (map snd z) ->
  is_Some (channels (snd (store_channels self z)) !! k).
Proof.
  induction z as [|[b k0] z IH]; intros self k Hok Hin; [destruct Hin|].
  simpl in Hok |- *. destruct (convert self b) as [e|v]; [discriminate|].
  destruct (in_dec string_dec k (map snd z)) as [Hz|Hz]; [now apply IH|].
  destruct Hin as [Hk|Hin]; [|contradiction]. simpl in Hk. subst k0.
  rewrite store_channels_frame by exact Hz.
  cbn [channels set_channels]. rewrite lookup_insert_eq. eauto.
Qed.

Lemma enter_from_empty (self : OpenEXRReader) (h : Handle) (chans : list Buf) :
  channels self = ∅ ->
  length (channel_names self) = length (channel_keys self) ->
  InputFile (filepath self) = inr h ->
  InputFile_channels h (channel_names self) = inr chans ->
  length chans = length (channel_names self) ->
  (forall b, In b chans -> exists v, convert self b = inr v) ->
  exists exr self',
    __enter__ self = (inr exr, self') /\
    inputfile self' = Some h /\
    w_channel_names exr = channel_keys self /\
    w_resolution exr = resolution self /\
    w_attributes exr = channels self' /\
    (forall k, is_Some (w_attributes exr !! k) <-> In k (channel_keys self)) /\
    (forall i b k,
       chans !! i = Some b -> channel_keys self !! i = Some k ->
       (forall j, i < j -> channel_keys self !! j <> Some k) ->
       exists v, convert self b = inr v /\ w_attributes exr !! k = Some v).
Proof.
  intros Hempty Hlen Hopen Hread Hchans Hconv.
  rewrite (enter_unfold self h Hopen), load_channels_unfold.
  rewrite (requested_from_empty (set_inputfile self (Some h)) (channel_names self) Hempty).
  destruct (channel_names self) as [|n names] eqn:En.
  - destruct (channel_keys self) as [|k0 keys] eqn:Ek; [|discriminate].
    eexists _, _. split; [reflexivity|]. cbn. rewrite Ek, Hempty.
    repeat split; try reflexivity.
    + intros [v Hv]. rewrite lookup_empty in Hv. discriminate.
    + intros [].
    + intros i b k _ Hk. discriminate.
  - cbn [inputfile set_inputfile]. rewrite Hread.
    set (self1 := log_read (set_inputfile self (Some h)) (n :: names)).
    set (z := combine chans (channel_keys self)).
    assert (Hz : map snd z = channel_keys self)
      by (apply map_snd_combine; simpl in *; lia).
    assert (Hok : fst (store_channels self1 z) = inr tt).
    { apply store_channels_succeeds. intros b k Hin.
      apply in_combine_l in Hin. exact (Hconv b Hin). }
    pose proof (store_channels_only_channels z self1) as Hs.
    destruct (store_channels self1 z) as [r self2] eqn:Es.
    cbn [fst snd] in Hok, Hs. subst r.
    eexists _, self2. split; [reflexivity|].
    rewrite Hs. cbn.
    repeat split; try reflexivity.
    + intros Hk. rewrite <- Hz.
      pose proof (store_channels_keys z self1 k) as Hkeys. rewrite Es in Hkeys.
      cbn [snd] in Hkeys. destruct (Hkeys Hk) as [[v Hv]|Hin]; [|exact Hin].
      subst self1. cbn in Hv. rewrite Hempty, lookup_empty in Hv. discriminate.
    + intros Hk. rewrite <- Hz in Hk.
      pose proof (store_channels_all_keys z self1 k) as Hall. rewrite Es in Hall.
      now apply Hall.
    + intros i b k Hb Hk Hlast.
      pose proof (store_channels_last z self1 i b k) as Hl. rewrite Es in Hl.
      apply Hl; [reflexivity | now apply lookup_combine |].
      intros j b' Hj Hzj. apply lookup_combine in Hzj.
      destruct Hzj as [_ Hzj]. now apply (Hlast j Hj).
Qed.

End EnterProperties.

Section SessionProperties.
Import Reader Invariants.
Context {C : Collaborators}.

(** X15: the first [__enter__] of a reader, on a file that opens, whose
    read returns one buffer for each parsed layer path and whose buffers
    all convert: it returns a wrapper, leaves the file bound, and the
    attributes of the wrapper are exactly the parsed short keys; the value
    under a key is the conversion of the buffer at the position of the
    last occurrence of that key.  The field [channel_names] of the wrapper
    holds the short keys. *)
Theorem X15_first_enter_exposes_keys (fp cs : string) (l : option Loader)
    (res : option (Z * Z)) (vl : option string) (h : Handle) (chans : list Buf) :
  let self := new fp cs l res vl in
  let names := fst (parse cs (default default_view_layer_name vl)) in
  let keys := snd (parse cs (default default_view_layer_name vl)) in
  InputFile fp = inr h ->
  InputFile_channels h names = inr chans ->
  length chans = length names ->
  (forall b, In b chans -> exists v, convert self b = inr v) ->
  exists exr self',
    __enter__ self = (inr exr, self') /\
    inputfile self' = Some h /\
    w_channel_names exr = keys /\
    w_resolution exr = default default_resolution res /\
    w_attributes exr = channels self' /\
    (forall k, is_Some (w_attributes exr !! k) <-> In k keys) /\
    (forall i b k,
       chans !! i = Some b -> keys !! i = Some k ->
       (forall j, i < j -> keys !! j <> Some k) ->
       exists v, convert self b = inr v /\ w_attributes exr !! k = Some v).
Proof.
  intros self names keys Hopen Hread Hlen Hconv.
  apply (enter_from_empty self h chans); auto.
  apply parse_lengths.
Qed.

Lemma new_parsed (fp cs : string) (l : option Loader)
    (res : option (Z * Z)) (vl : option string) :
  parsed_reader (new fp cs l res vl).
Proof.
  split; [reflexivity|]. split; [reflexivity|].
  intros k [v Hv]. cbn in Hv. rewrite lookup_empty in Hv. discriminate.
Qed.

Lemma load_keeps_parsed (self : OpenEXRReader) :
  parsed_reader self ->
  parsed_reader (snd (_load_channels self (channel_names self) (channel_keys self))).
Proof.
  intros (Hn & Hk & Hshort).
  destruct (load_channels_only_channels self (channel_names self) (channel_keys self))
    as (m & log & E).
  split; [rewrite E; exact Hn|]. split; [rewrite E; exact Hk|].
  intros k Hsome.
  destruct (in_dec string_dec k (channel_keys self)) as [Hin|Hout].
  - rewrite Hk in Hin. apply list_elem_of_In in Hin.
    now apply parsed_keys_short in Hin.
  - apply Hshort.
    now rewrite <- (load_channels_frame self (channel_names self) (channel_keys self)
                      k Hout).
Qed.

Lemma set_inputfile_parsed (self : OpenEXRReader) (f : option Handle) :
  parsed_reader self -> parsed_reader (set_inputfile self f).
Proof. intros H. exact H. Qed.

Lemma enter_keeps_parsed (self : OpenEXRReader) :
  parsed_reader self -> parsed_reader (snd (__enter__ self)).
Proof.
  intros H. destruct (InputFile (filepath self)) as [e|h] eqn:Hopen.
  - unfold __enter__. now rewrite Hopen.
  - rewrite (enter_unfold self h Hopen).
    pose proof (load_keeps_parsed (set_inputfile self (Some h))
                  (set_inputfile_parsed self (Some h) H)) as G.
    change (channel_names (set_inputfile self (Some h))) with (channel_names self) in G.
    change (channel_keys (set_inputfile self (Some h))) with (channel_keys self) in G.
    destruct (_load_channels _ _ _) as [[e|u] s]; exact G.
Qed.

Lemma exit_keeps_parsed (self : OpenEXRReader) :
  parsed_reader self -> parsed_reader (snd (__exit__ self)).
Proof.
  intros H. unfold __exit__. destruct (inputfile self) as [h|]; [|exact H].
  destruct (InputFile_close h) as [e|h']; exact H.
Qed.

Lemma enter_reads_all (self : OpenEXRReader) (h : Handle) :
  parsed_reader self -> InputFile (filepath self) = inr h ->
  channel_names self <> [] ->
  read_log (snd (__enter__ self)) = read_log self ++ [channel_names self].
Proof.
  intros (Hn & Hk & Hshort) Hopen Hne. rewrite (enter_unfold self h Hopen).
  pose proof (load_parsed_reads (set_inputfile self (Some h)) h
                (channel_string self) (view_layer_name self) (channel_keys self)
                eq_refl Hshort) as G.
  rewrite <- Hn in G. specialize (G Hne).
  destruct (_load_channels _ _ _) as [[e|u] s]; exact G.
Qed.

(** X16: a reader keeps its two parsed lists, and a mapping with keys of
    at most two characters, through every [__enter__] and [__exit__]; so
    every [__enter__] on a file that opens, the first and each later one,
    calls [inputfile.channels] once with the full list of parsed layer
    paths whenever that list is not empty. *)
Theorem X16_every_enter_reads_all :
  (forall fp cs l res vl, parsed_reader (new fp cs l res vl)) /\
  (forall self, parsed_reader self ->
     parsed_reader (snd (__enter__ self)) /\ parsed_reader (snd (__exit__ self))) /\
  (forall self h, parsed_reader self ->
     InputFile (filepath self) = inr h -> channel_names self <> [] ->
     read_log (snd (__enter__ self)) = read_log self ++ [channel_names self]).
Proof.
  split; [exact new_parsed|]. split.
  - intros self H. split; [now apply enter_keeps_parsed | now apply exit_keeps_parsed].
  - exact enter_reads_all.
Qed.

Lemma load_nothing (self : OpenEXRReader) (keys : list string) :
  _load_channels self [] keys = (inr tt, self).
Proof. reflexivity. Qed.

(** With no code letter in the channel string, [__enter__] binds the
    file and returns an empty wrapper without calling the loader's read. *)
Lemma enter_nothing_to_load (fp cs : string) (l : option Loader)
    (res : option (Z * Z)) (vl : option string) (h : Handle) :
  none_in code_letters cs = true -> InputFile fp = inr h ->
  __enter__ (new fp cs l res vl) =
    (inr (mkWrapper [] (default default_resolution res) ∅),
     set_inputfile (new fp cs l res vl) (Some h)).
Proof.
  intros Hcs Hopen.
  assert (E : parse cs (default default_view_layer_name vl) = ([], [])).
  { rewrite parse_unfold, scan_no_code_letter; [reflexivity| |exact Hcs].
    split; reflexivity. }
  assert (En : channel_names (new fp cs l res vl) = []).
  { change (fst (parse cs (default default_view_layer_name vl)) = []).
    now rewrite E. }
  assert (Ek : channel_keys (new fp cs l res vl) = []).
  { change (snd (parse cs (default default_view_layer_name vl)) = []).
    now rewrite E. }
  rewrite (enter_unfold (new fp cs l res vl) h Hopen), En, Ek, load_nothing.
  f_equal. f_equal. f_equal. exact Ek.
Qed.

(** X18: when the file does not open, the [with] statement passes the
    exception of [InputFile] on at once: the block does not run, nothing is
    read, and the reader is as before, with no file bound by this attempt. *)
Theorem X18_open_failure (A : Type) (self : OpenEXRReader) (e : LibExn)
    (body : OpenEXRWrapper -> Handle -> (exn + A) * Handle) :
  InputFile (filepath self) = inl e ->
  with_reader self body = (inl (Raised e), self).
Proof. intros H. unfold with_reader, __enter__. now rewrite H. Qed.

Context {K : CloseContract C}.

(** X19: once [__enter__] has returned, the [with] statement closes the
    file whatever the block does with it and however the block ends, and
    the outcome of the statement is the outcome of the block, an exception
    of the block included. *)
Theorem X19_block_exit_closes (A : Type) (self self' : OpenEXRReader)
    (exr : OpenEXRWrapper) (body : OpenEXRWrapper -> Handle -> (exn + A) * Handle) :
  __enter__ self = (inr exr, self') ->
  file_closed (snd (with_reader self body)) = true /\
  exists h, inputfile self' = Some h /\
            fst (with_reader self body) = fst (body exr h).
Proof. apply block_exit_closes. Qed.

(** X20: with a file object bound, a direct [close()] followed by
    [__exit__] raises nothing, and the file is closed afterwards. *)
Theorem X20_close_twice (self : OpenEXRReader) (h : Handle) :
  inputfile self = Some h ->
  fst (use_inputfile direct_close self) = inr tt /\
  fst (__exit__ (snd (use_inputfile direct_close self))) = inr tt /\
  file_closed (snd (__exit__ (snd (use_inputfile direct_close self)))) = true.
Proof. apply close_twice. Qed.

(** X17: a reader whose channel string has none of the nine letters
    [cirgbadnf] still opens its file on [__enter__], but never reads from
    it: the wrapper has no key and no attribute, nothing is logged as
    read, and the file object is bound and open. *)
Theorem X17_nothing_to_load (fp cs : string) (l : option Loader)
    (res : option (Z * Z)) (vl : option string) (h : Handle) :
  none_in code_letters cs = true -> InputFile fp = inr h ->
  __enter__ (new fp cs l res vl) =
    (inr (mkWrapper [] (default default_resolution res) ∅),
     set_inputfile (new fp cs l res vl) (Some h)) /\
  read_log (snd (__enter__ (new fp cs l res vl))) = [] /\
  inputfile (snd (__enter__ (new fp cs l res vl))) = Some h /\
  handle_open h = true /\
  file_left_open (snd (__enter__ (new fp cs l res vl))) = true.
Proof.
  intros Hcs Hopen.
  pose proof (InputFile_opens fp h Hopen) as Hh.
  rewrite (enter_nothing_to_load fp cs l res vl h Hcs Hopen).
  repeat split; try reflexivity; try exact Hh.
Qed.

End SessionProperties.

Section SessionPropertiesOnFixture.
Import Reader Invariants.
Local Existing Instance Fixture.collaborators.

Lemma X15_first_enter_exposes_keys_witness :
  exists exr self',
    __enter__ Fixture.present_channels = (inr exr, self') /\
    inputfile self' =
      Some (Fixture.mkFile
              [("BAT_ViewLayer.Combined.R", [1; 2]%Z);
               ("BAT_ViewLayer.Combined.G", [3; 4]%Z);
               ("BAT_ViewLayer.Normal.X", [5; 6]%Z)] true) /\
    w_channel_names exr = ["r"; "g"] /\
    w_attributes exr !! "g" = Some [3; 4]%Z.
Proof.
  destruct (X15_first_enter_exposes_keys (C := Fixture.collaborators)
              "frame.exr" "rg" None None None
              (Fixture.mkFile
                 [("BAT_ViewLayer.Combined.R", [1; 2]%Z);
                  ("BAT_ViewLayer.Combined.G", [3; 4]%Z);
                  ("BAT_ViewLayer.Normal.X", [5; 6]%Z)] true)
              [[1; 2]%Z; [3; 4]%Z] eq_refl eq_refl eq_refl)
    as (exr & self' & He & Hf & Hn & _ & _ & _ & Hv).
  { intros b _. exists b. reflexivity. }
  exists exr, self'. split; [exact He|]. split; [exact Hf|]. split; [exact Hn|].
  destruct (Hv 1 [3; 4]%Z "g" eq_refl eq_refl) as (v & Ev & Hl).
  { intros [|[|j]] Hj; [lia | lia | discriminate]. }
  injection Ev as <-. exact Hl.
Defined.

Lemma X16_every_enter_reads_all_witness :
  parsed_reader Fixture.loaded_once /\
  channel_names Fixture.loaded_once <> [] /\
  read_log (snd (__enter__ Fixture.loaded_once)) =
    read_log Fixture.loaded_once ++ [channel_names Fixture.loaded_once].
Proof.
  destruct (X16_every_enter_reads_all (C := Fixture.collaborators))
    as (Hnew & Hkeep & Hread).
  assert (Hp : parsed_reader Fixture.loaded_once).
  { apply (proj1 (Hkeep Fixture.present_channels
                    (Hnew "frame.exr" "rg" None None None))). }
  assert (Hne : channel_names Fixture.loaded_once <> []) by discriminate.
  split; [exact Hp|]. split; [exact Hne|].
  exact (Hread Fixture.loaded_once
           (Fixture.mkFile
              [("BAT_ViewLayer.Combined.R", [1; 2]%Z);
               ("BAT_ViewLayer.Combined.G", [3; 4]%Z);
               ("BAT_ViewLayer.Normal.X", [5; 6]%Z)] true)
           Hp eq_refl Hne).
Defined.

Lemma X17_nothing_to_load_witness :
  none_in code_letters "xyz" = true /\
  fst (__enter__ (new "frame.exr" "xyz" None None None)) =
    inr (mkWrapper [] (1080, 1920)%Z ∅) /\
  read_log (snd (__enter__ (new "frame.exr" "xyz" None None None))) = [] /\
  file_left_open (snd (__enter__ (new "frame.exr" "xyz" None None None))) = true.
Proof.
  split; [reflexivity|].
  destruct (X17_nothing_to_load (C := Fixture.collaborators) (K := fixture_contract)
              "frame.exr" "xyz" None None None
              (Fixture.mkFile
                 [("BAT_ViewLayer.Combined.R", [1; 2]%Z);
                  ("BAT_ViewLayer.Combined.G", [3; 4]%Z);
                  ("BAT_ViewLayer.Normal.X", [5; 6]%Z)] true)
              eq_refl eq_refl) as (E & Hlog & _ & _ & Hopen).
  split; [rewrite E; reflexivity|]. split; [exact Hlog | exact Hopen].
Defined.

Lemma X18_open_failure_witness :
  Fixture.open_file "absent.exr" = inl Fixture.OpenError /\
  with_reader (new "absent.exr" "rg" None None None) Fixture.idle_block =
    (inl (Raised Fixture.OpenError), new "absent.exr" "rg" None None None).
Proof.
  split; [reflexivity|].
  apply (X18_open_failure (C := Fixture.collaborators) unit
           (new "absent.exr" "rg" None None None) Fixture.OpenError
           Fixture.idle_block).
  reflexivity.
Defined.

Lemma X19_block_exit_closes_witness :
  file_closed (snd (with_reader Fixture.present_channels Fixture.raising_block)) = true.
Proof.
  eapply (proj1 (X19_block_exit_closes (C := Fixture.collaborators)
                   (K := fixture_contract) unit Fixture.present_channels
                   (snd (__enter__ Fixture.present_channels))
                   (mkWrapper ["r"; "g"] (1080, 1920)%Z
                      (channels (snd (__enter__ Fixture.present_channels))))
                   Fixture.raising_block _)).
  Unshelve. vm_compute. reflexivity.
Defined.

Lemma X20_close_twice_witness :
  fst (__exit__ (snd (use_inputfile direct_close Fixture.loaded_once))) = inr tt.
Proof.
  apply (X20_close_twice (C := Fixture.collaborators) (K := fixture_contract)
           Fixture.loaded_once
           (Fixture.mkFile
              [("BAT_ViewLayer.Combined.R", [1; 2]%Z);
               ("BAT_ViewLayer.Combined.G", [3; 4]%Z);
               ("BAT_ViewLayer.Normal.X", [5; 6]%Z)] true)
           eq_refl).
Defined.

End SessionPropertiesOnFixture.

(** * A conversion that raises *)

Section ConversionFailure.
Import Reader Invariants.
Context {C : Collaborators}.

Lemma store_channels_app (z1 z2 : list (Buf * string)) : forall self,
  fst (store_channels self z1) = inr tt ->
  store_channels self (z1 ++ z2) = store_channels (snd (store_channels self z1)) z2.
Proof.
  induction z1 as [|[b k] z1 IH]; intros self H; [reflexivity|].
  simpl in H |- *. destruct (convert self b) as [e|v]; [discriminate|].
  now apply IH.
Qed.

Lemma convert_after_store (z : list (Buf * string)) (self : OpenEXRReader) (b : Buf) :
  convert (snd (store_channels self z)) b = convert self b.
Proof. rewrite store_channels_only_channels. reflexivity. Qed.

Lemma store_channels_fails_at (z : list (Buf * string)) (self : OpenEXRReader)
    (i : nat) (b : Buf) (k : string) (e : LibExn) :
  z !! i = Some (b, k) -> convert self b = inl e ->
  (forall j b' k', j < i -> z !! j = Some (b', k') ->
     exists v, convert self b' = inr v) ->
  fst (store_channels self (take i z)) = inr tt /\
  store_channels self z = (inl (Raised e), snd (store_channels self (take i z))).
Proof.
  intros Hi He Hbefore.
  assert (Hok : fst (store_channels self (take i z)) = inr tt).
  { apply store_channels_succeeds. intros b' k' Hin.
    apply list_elem_of_In, list_elem_of_lookup in Hin. destruct Hin as [j Hj].
    apply lookup_take_Some in Hj. destruct Hj as [Hj Hlt].
    exact (Hbefore j b' k' Hlt Hj). }
  split; [exact Hok|].
  rewrite <- (take_drop_middle z i (b, k) Hi) at 1.
  rewrite store_channels_app by exact Hok.
  simpl. now rewrite convert_after_store, He.
Qed.

(** X21: the loader is not atomic.  When the conversion of the buffer at
    position [i] raises and the buffers before it convert, the loader
    passes that exception on, and the buffers before position [i] have
    been stored: each is found under the key at its own position, unless
    that key occurs again before position [i]. *)
Theorem X21_conversion_failure_keeps_earlier (self : OpenEXRReader) (h : Handle)
    (names keys : list string) (chans : list Buf)
    (i : nat) (b : Buf) (k : string) (e : LibExn) :
  inputfile self = Some h ->
  requested self names <> [] ->
  InputFile_channels h (requested self names) = inr chans ->
  chans !! i = Some b -> keys !! i = Some k ->
  convert self b = inl e ->
  (forall j b', j < i -> chans !! j = Some b' -> exists v, convert self b' = inr v) ->
  fst (_load_channels self names keys) = inl (Raised e) /\
  forall j bj kj,
    j < i -> chans !! j = Some bj -> keys !! j = Some kj ->
    (forall j', j < j' -> j' < i -> keys !! j' <> Some kj) ->
    exists v, convert self bj = inr v /\
              channels (snd (_load_channels self names keys)) !! kj = Some v.
Proof.
  intros Hh Hne Hc Hb Hk He Hbefore. rewrite load_channels_unfold.
  destruct (requested self names) as [|n names'] eqn:Er; [congruence|].
  rewrite Hh, Hc.
  set (self1 := log_read self (n :: names')).
  destruct (store_channels_fails_at (combine chans keys) self1 i b k e)
    as [Hok ->].
  { apply lookup_combine. auto. }
  { exact He. }
  { intros j b' k' Hj Hz. apply lookup_combine in Hz. destruct Hz as [Hz _].
    exact (Hbefore j b' Hj Hz). }
  split; [reflexivity|]. cbn [snd].
  intros j bj kj Hj Hbj Hkj Hlast.
  apply (store_channels_last (take i (combine chans keys)) self1 j bj kj Hok).
  - rewrite lookup_take_lt by exact Hj. apply lookup_combine. auto.
  - intros j' b' Hj' Hz. apply lookup_take_Some in Hz. destruct Hz as [Hz Hlt].
    apply lookup_combine in Hz. destruct Hz as [_ Hz].
    exact (Hlast j' Hj' Hlt Hz).
Qed.

End ConversionFailure.

Section ConversionFailureOnFixture.
Import Reader Invariants.
Local Existing Instance StrictFixture.collaborators.

Lemma X21_conversion_failure_keeps_earlier_witness :
  fst (_load_channels StrictFixture.bound_reader
         ["BAT_ViewLayer.Combined.R"; "BAT_ViewLayer.Combined.G"] ["r"; "g"]) =
    inl (Raised StrictFixture.ValueError) /\
  exists v,
    convert StrictFixture.bound_reader [1; 2; 3; 4]%Z = inr v /\
    channels (snd (_load_channels StrictFixture.bound_reader
                     ["BAT_ViewLayer.Combined.R"; "BAT_ViewLayer.Combined.G"]
                     ["r"; "g"])) !! "r" = Some v.
Proof.
  destruct (X21_conversion_failure_keeps_earlier (C := StrictFixture.collaborators)
              StrictFixture.bound_reader
              (Fixture.mkFile
                 [("BAT_ViewLayer.Combined.R", [1; 2; 3; 4]%Z);
                  ("BAT_ViewLayer.Combined.G", [5; 6]%Z)] true)
              ["BAT_ViewLayer.Combined.R"; "BAT_ViewLayer.Combined.G"] ["r"; "g"]
              [[1; 2; 3; 4]%Z; [5; 6]%Z] 1 [5; 6]%Z "g" StrictFixture.ValueError
              eq_refl) as [H1 H2].
  - vm_compute. discriminate.
  - vm_compute. reflexivity.
  - reflexivity.
  - reflexivity.
  - reflexivity.
  - intros [|j] b' Hj Hb; [|lia]. injection Hb as <-. eexists. reflexivity.
  - split; [exact H1|].
    apply (H2 0 [1; 2; 3; 4]%Z "r"); [lia | reflexivity | reflexivity |].
    intros j' Hj1 Hj2. lia.
Defined.

End ConversionFailureOnFixture.

(** * The constructor of the reader and the prefix of every path *)

Lemma parse_codes_uniform (cs : string) :
  exists ks : list code,
    forallb code_ok ks = true /\
    forall vl, parse cs vl = (map (fun k => vl +:+ code_selector k) ks, map code_key ks).
Proof.
  destruct (scan_explained cs init init_well_formed) as (ks & Hok & Hn & Hk).
  { exists []. repeat split. }
  exists ks. split; [exact Hok|]. intros vl.
  rewrite parse_unfold, channel_map_eta, Hn, Hk, map_map. reflexivity.
Qed.

Lemma known_selector_dotted (sel : string) :
  In sel all_selectors -> dotted sel = true.
Proof.
  intros H. simpl in H.
  repeat (destruct H as [H|H]; [subst sel; reflexivity|]). destruct H.
Qed.

(** C8: [resolution] is [(1080, 1920)] whenever the caller omits it and
    the caller's value otherwise, [view_layer_name] is ["BAT_ViewLayer"]
    whenever the caller omits it and the caller's value otherwise, each
    whatever the other arguments are; the two lists kept by the reader are
    those returned by the parser for that prefix; and every path returned is
    the prefix followed by a dotted selector: for every channel string there
    are well-formed codes, the same for all prefixes, whose selectors (each
    one of the seventeen of the source, each beginning with a dot) follow
    the prefix in the paths, in order.  For the channel string of the
    fifteen codes of the source the paths are written out, and for every
    channel string that spells well-formed codes they are given in
    general. *)
Theorem C8_defaults_and_prefix (C : Reader.Collaborators)
    (fp cs : string) (l : option Reader.Loader) :
  (forall vl : option string,
     Reader.resolution (Reader.new fp cs l None vl) = (1080, 1920)%Z) /\
  (forall (r : Z * Z) (vl : option string),
     Reader.resolution (Reader.new fp cs l (Some r) vl) = r) /\
  (forall res : option (Z * Z),
     Reader.view_layer_name (Reader.new fp cs l res None) = "BAT_ViewLayer") /\
  (forall (res : option (Z * Z)) (vl : string),
     Reader.view_layer_name (Reader.new fp cs l res (Some vl)) = vl) /\
  (forall (res : option (Z * Z)) (vl : option string),
     Reader.channel_names (Reader.new fp cs l res vl) =
       fst (parse cs (default "BAT_ViewLayer" vl)) /\
     Reader.channel_keys (Reader.new fp cs l res vl) =
       snd (parse cs (default "BAT_ViewLayer" vl))) /\
  (exists ks : list code,
     forallb code_ok ks = true /\
     Forall (fun k => In (code_selector k) all_selectors /\
                      dotted (code_selector k) = true) ks /\
     forall vl : string,
       parse cs vl = (map (fun k => vl +:+ code_selector k) ks, map code_key ks)) /\
  (forall vl : string,
     parse "cirgbadnxnynznwfxfyfzfw" vl =
       ([vl +:+ ".IndexOB.X"; vl +:+ ".IndexMA.X"; vl +:+ ".Combined.R";
         vl +:+ ".Combined.G"; vl +:+ ".Combined.B"; vl +:+ ".Combined.A";
         vl +:+ ".Depth.Z";
         vl +:+ ".Normal.X"; vl +:+ ".Normal.Y"; vl +:+ ".Normal.Z"; vl +:+ ".Normal.W";
         vl +:+ ".Vector.X"; vl +:+ ".Vector.Y"; vl +:+ ".Vector.Z"; vl +:+ ".Vector.W"],
        ["c"; "i"; "r"; "g"; "b"; "a"; "d";
         "nx"; "ny"; "nz"; "nw"; "fx"; "fy"; "fz"; "fw"])) /\
  (forall (ks : list code) (vl : string),
     forallb code_ok ks = true ->
     parse (spell ks) vl = (map (fun k => vl +:+ code_selector k) ks, map code_key ks)).
Proof.
  split; [intros vl; reflexivity|].
  split; [intros r vl; reflexivity|].
  split; [intros res; reflexivity|].
  split; [intros res vl; reflexivity|].
  split; [intros res vl; split; reflexivity|].
  split.
  - destruct (parse_codes_uniform cs) as (ks & Hok & Hall).
    exists ks. split; [exact Hok|]. split; [|exact Hall].
    apply Forall_forall. intros k Hk.
    assert (Hin : In (code_selector k) all_selectors).
    { apply code_selector_known. rewrite forallb_forall in Hok.
      apply Hok. now apply list_elem_of_In. }
    split; [exact Hin | now apply known_selector_dotted].
  - split; [intros vl; reflexivity|].
    intros ks vl Hok. now apply parse_spell.
Qed.

Lemma C8_defaults_and_prefix_witness :
  forallb code_ok [Double "n" "y"; Single "r"] = true /\
  parse (spell [Double "n" "y"; Single "r"]) "Shot" =
    (["Shot.Normal.Y"; "Shot.Combined.R"], ["ny"; "r"]).
Proof.
  split; [reflexivity|].
  exact (proj2 (proj2 (proj2 (proj2 (proj2 (proj2 (proj2
           (C8_defaults_and_prefix Fixture.collaborators
              "frame.exr" "rg" None)))))))
           [Double "n"%char "y"%char; Single "r"%char] "Shot" eq_refl).
Defined.
